(** * Dice elimination game (game.js): player and round engine

    A shallow embedding of the rule-carrying part of [game.js]: the
    [Player] class, the round lifecycle ([startRound], [executeRound],
    [resolveRound]), the choice handlers and [checkWinCondition].
    Rendering, logging and animation are left out; the visibility of the
    action sections and the two timers of a round are kept, because they
    decide which handler can run next.

    JavaScript numbers that the game only ever uses as integers (die
    sides, scores, indices) are [Z]. The values of [Math.random()] are
    doubles in [0,1), modelled exactly, together with the rounding of
    the one floating-point product the game takes of them. *)

From stdpp Require Import base numbers list sorting strings.

Open Scope Z_scope.

(** ** [Math.random()] and the products the game takes of it *)

Module JS.

(** A double in [0,1): the value [mant / 2^expo]. Every double of that
    interval, subnormals included, has this shape with [mant < 2^53] and
    [53 <= expo <= 1074]; the major engines return multiples of [2^-53]. *)
Record unit_double := UnitDouble {
  mant : Z;
  expo : Z;
  unit_double_ok : bool_decide (0 ≤ mant < 2 ^ 53 ∧ 53 ≤ expo ≤ 1074)
}.

(** Round a non-negative integer to 53 significant bits, ties to even:
    the rounding IEEE-754 applies to the exact product. *)
Definition round53 (x : Z) : Z :=
  if x <? 2 ^ 53 then x
  else
    let s := Z.log2 x - 52 in
    let q := x / 2 ^ s in
    let r := x mod 2 ^ s in
    let half := 2 ^ (s - 1) in
    if r <? half then q * 2 ^ s
    else if half <? r then (q + 1) * 2 ^ s
    else if Z.even q then q * 2 ^ s
    else (q + 1) * 2 ^ s.

(** The double [u * n] for an integer [0 <= n < 2^53], which a double
    holds exactly, as a numerator over [2^(expo u)]. *)
Definition times (u : unit_double) (n : Z) : Z := round53 (mant u * n).

(** [Math.floor(u * n)] *)
Definition floor_times (u : unit_double) (n : Z) : Z :=
  times u n / 2 ^ expo u.

(** [Math.ceil(u * n)] *)
Definition ceil_times (u : unit_double) (n : Z) : Z :=
  - ((- times u n) / 2 ^ expo u).

(** The sequence of values the successive calls of [Math.random()]
    return. *)
Definition Rng := nat → unit_double.

Definition next (rng : Rng) : unit_double * Rng :=
  (rng 0%nat, λ i, rng (S i)).

(** [l.indexOf(x)]: the first index holding [x], or [-1]. *)
Definition indexOf (x : Z) (l : list Z) : Z :=
  match list_find (λ y, y = x) l with
  | Some (i, _) => Z.of_nat i
  | None => -1
  end.

(** The order of [sort((a, b) => b - a)]. *)
Definition desc (a b : Z) : Prop := b ≤ a.

#[global] Instance desc_dec a b : Decision (desc a b).
Proof. unfold desc. apply _. Defined.

#[global] Instance desc_total : Total desc.
Proof. intros x y. unfold desc. lia. Qed.

#[global] Instance desc_trans : Transitive desc.
Proof. intros x y z. unfold desc. lia. Qed.

(** [l.sort((a, b) => b - a)] on numbers: the descending arrangement. *)
Definition sort_desc (l : list Z) : list Z := merge_sort desc l.

(** The sum of a list of integers. *)
Definition sumZ (l : list Z) : Z := foldr Z.add 0 l.

End JS.

Import JS.

(** ** Constants *)

Definition DICE_SIDES : list Z := [4; 6; 8; 10; 12; 20; 100].

Inductive Difficulty := easy | medium | hard.

(** [DIFFICULTY[d].targetD100s] *)
Definition targetD100s (d : Difficulty) : nat :=
  match d with easy => 1 | medium => 3 | hard => 5 end%nat.

(** ** The [Player] class *)

Record Player := mkPlayer {
  name : string;
  isHuman : bool;
  dice : list Z;
  madeFirstChoice : bool;
  eliminated : bool;
  chosenDie : Z;
  roundScore : Z;
  roundRolls : list Z
}.

Definition set_dice (d : list Z) (p : Player) : Player :=
  mkPlayer (name p) (isHuman p) d (madeFirstChoice p) (eliminated p)
           (chosenDie p) (roundScore p) (roundRolls p).

Definition set_madeFirstChoice (b : bool) (p : Player) : Player :=
  mkPlayer (name p) (isHuman p) (dice p) b (eliminated p)
           (chosenDie p) (roundScore p) (roundRolls p).

Definition set_eliminated (b : bool) (p : Player) : Player :=
  mkPlayer (name p) (isHuman p) (dice p) (madeFirstChoice p) b
           (chosenDie p) (roundScore p) (roundRolls p).

Definition set_chosenDie (d : Z) (p : Player) : Player :=
  mkPlayer (name p) (isHuman p) (dice p) (madeFirstChoice p) (eliminated p)
           d (roundScore p) (roundRolls p).

Definition set_round (rolls : list Z) (score : Z) (p : Player) : Player :=
  mkPlayer (name p) (isHuman p) (dice p) (madeFirstChoice p) (eliminated p)
           (chosenDie p) score rolls.

(** [new Player(name, isHuman)] *)
Definition newPlayer (n : string) (h : bool) : Player :=
  mkPlayer n h [4] false false 4 0 [].

Definition isProtected (p : Player) : bool := negb (madeFirstChoice p).

Definition d100Count (p : Player) : nat :=
  length (filter (λ d, d = 100) (dice p)).

(** [Math.max(...l)] of a non-empty list of integers. *)
Definition list_max_Z (d : Z) (l : list Z) : Z := foldr Z.max d l.

Definition bestDie (p : Player) : Z :=
  match dice p with
  | [] => 0
  | d :: l => list_max_Z d l
  end.

(** The body of the [for] loop of [rollForRound], run [n] more times. *)
Fixpoint rollLoop (n : nat) (sides : Z) (rolls : list Z) (score : Z)
    (rng : Rng) : list Z * Z * Rng :=
  match n with
  | O => (rolls, score, rng)
  | S n' =>
      let (u, rng') := next rng in
      let roll := ceil_times u sides in
      rollLoop n' sides (rolls ++ [roll]) (score + roll) rng'
  end.

(** [i] runs over [0 .. sides - 1]: [Z.to_nat sides] iterations. *)
Definition rollForRound (p : Player) (rng : Rng) : Player * Rng :=
  let sides := chosenDie p in
  let '(rolls, score, rng') := rollLoop (Z.to_nat sides) sides [] 0 rng in
  (set_round rolls score p, rng').

(** The rolls of [n] iterations of that loop: one per value drawn. *)
Definition rollsOf (sides : Z) (n : nat) (rng : Rng) : list Z :=
  (λ k, ceil_times (rng k) sides) <$> seq 0 n.

(** [applyChoice(choice)]: the returned [prevDie] and the player after
    the call. [nextIdx] lies in [0 .. 6], so [DICE_SIDES[nextIdx]] is
    always an entry of the table. *)
Definition applyChoice (choice : string) (p : Player) : Z * Player :=
  let prevDie := chosenDie p in
  let p1 := set_madeFirstChoice true p in
  let dice1 :=
    if decide (choice = "duplicate") then dice p1 ++ [chosenDie p1]
    else
      let idx := indexOf (chosenDie p1) DICE_SIDES in
      let nextIdx := Z.min (idx + 1) (Z.of_nat (length DICE_SIDES) - 1) in
      let dieIdx := indexOf (chosenDie p1) (dice p1) in
      if decide (dieIdx ≠ -1)
      then <[Z.to_nat dieIdx := DICE_SIDES !!! Z.to_nat nextIdx]> (dice p1)
      else dice p1 in
  (prevDie, set_dice (sort_desc dice1) p1).

(** The indices [loseRandomDie] may pick from, or [None] where it
    returns [null] before drawing. *)
Definition eligibleDice (p : Player) : option (list nat) :=
  if decide (length (dice p) = 0%nat) then None
  else
    let eligible := seq 0 (length (dice p)) in
    if isProtected p then
      let d4Idx := indexOf 4 (dice p) in
      if decide (d4Idx ≠ -1) then
        if decide (length (dice p) = 1%nat) then None
        else
          let eligible' := filter (λ i, Z.of_nat i ≠ d4Idx) eligible in
          if decide (length eligible' = 0%nat) then None else Some eligible'
      else
        if decide (length eligible = 0%nat) then None else Some eligible
    else Some eligible.

(** [loseRandomDie()]: the returned value ([None] for [null]), the
    player after the call and the remaining random values. The drawn
    position is always inside [eligible] ([floor_times_bounds]) and
    [eligible] holds indices of [dice] only, so neither lookup can yield
    [undefined]. *)
Definition loseRandomDie (p : Player) (rng : Rng) : option Z * Player * Rng :=
  match eligibleDice p with
  | None => (None, p, rng)
  | Some eligible =>
      let (u, rng') := next rng in
      let pick :=
        eligible !!! Z.to_nat (floor_times u (Z.of_nat (length eligible))) in
      let lost := dice p !!! pick in
      (Some lost, set_dice (delete pick (dice p)) p, rng')
  end.

Definition getAIChoice (p : Player) : string :=
  let idx := indexOf (chosenDie p) DICE_SIDES in
  if decide (idx < Z.of_nat (length DICE_SIDES) - 1) then "upgrade"
  else "duplicate".

(** ** The [state] object and the page *)

Inductive Phase :=
  | setup | select_die | rolling | resolving | choice | continue | over.

Record GameState := mkState {
  players : list Player;
  pool : list Z;
  round : nat;
  difficulty : Difficulty;
  numOpponents : nat;
  phase : Phase
}.

(** The initial value of [state]. *)
Definition state0 : GameState := mkState [] [] 0 easy 2 setup.

Inductive Screen := setup_screen | game_screen | win_screen.

Inductive SectionId :=
  | die_selector | roll_section | results_section | choice_section
  | continue_section.

#[global] Instance SectionId_eq_dec : EqDecision SectionId.
Proof. solve_decision. Defined.

(** What of the page decides which handler can run: the active screen,
    the [hidden] class of the five action sections, the buttons of the
    die selector, and the [disabled] flag of the upgrade button.
    [announced] is the argument [endGame] was called with: [Some (Some i)]
    for [players[i]], [Some None] for [null]. *)
Record Dom := mkDom {
  screen : Screen;
  hidden : SectionId → bool;
  dieOptions : list Z;
  upgradeDisabled : bool;
  announced : option (option nat)
}.

(** The callback a pending [setTimeout] will run: [resolveRound(active)]
    600 ms after the roll, or the winner's choice 1200 ms after the
    resolution. The timers that only remove animation classes are left
    out. *)
Inductive Timer :=
  | ResolveTimer (active : list nat)
  | ChoiceTimer (winner : nat).

Record World := mkWorld {
  state : GameState;
  dom : Dom;
  pending : option Timer
}.

Definition set_players (ps : list Player) (w : World) : World :=
  let s := state w in
  mkWorld (mkState ps (pool s) (round s) (difficulty s) (numOpponents s)
                   (phase s)) (dom w) (pending w).

Definition set_pool (l : list Z) (w : World) : World :=
  let s := state w in
  mkWorld (mkState (players s) l (round s) (difficulty s) (numOpponents s)
                   (phase s)) (dom w) (pending w).

Definition set_phase (ph : Phase) (w : World) : World :=
  let s := state w in
  mkWorld (mkState (players s) (pool s) (round s) (difficulty s)
                   (numOpponents s) ph) (dom w) (pending w).

Definition set_round_no (n : nat) (w : World) : World :=
  let s := state w in
  mkWorld (mkState (players s) (pool s) n (difficulty s) (numOpponents s)
                   (phase s)) (dom w) (pending w).

Definition set_hidden (id : SectionId) (b : bool) (w : World) : World :=
  let d := dom w in
  mkWorld (state w)
          (mkDom (screen d) (λ j, if decide (j = id) then b else hidden d j)
                 (dieOptions d) (upgradeDisabled d) (announced d))
          (pending w).

Definition showSection (id : SectionId) : World → World := set_hidden id false.
Definition hideSection (id : SectionId) : World → World := set_hidden id true.

Definition showScreen (sc : Screen) (w : World) : World :=
  let d := dom w in
  mkWorld (state w)
          (mkDom sc (hidden d) (dieOptions d) (upgradeDisabled d) (announced d))
          (pending w).

Definition set_dieOptions (l : list Z) (w : World) : World :=
  let d := dom w in
  mkWorld (state w)
          (mkDom (screen d) (hidden d) l (upgradeDisabled d) (announced d))
          (pending w).

Definition set_upgradeDisabled (b : bool) (w : World) : World :=
  let d := dom w in
  mkWorld (state w)
          (mkDom (screen d) (hidden d) (dieOptions d) b (announced d))
          (pending w).

Definition set_pending (t : option Timer) (w : World) : World :=
  mkWorld (state w) (dom w) t.

Definition set_announced (a : option (option nat)) (w : World) : World :=
  let d := dom w in
  mkWorld (state w)
          (mkDom (screen d) (hidden d) (dieOptions d) (upgradeDisabled d) a)
          (pending w).

(** Player objects are shared between [state.players] and the arrays
    [active], [tied] and [losers]: a reference is the player's index in
    [state.players]. *)
#[global] Instance Player_inhabited : Inhabited Player :=
  populate (newPlayer "" false).

Definition modPlayer (i : nat) (f : Player → Player) (w : World) : World :=
  set_players (alter f i (players (state w))) w.

(** [state.players.filter(p => !p.eliminated)], as references. *)
Definition activePlayers (ps : list Player) : list nat :=
  filter (λ i, eliminated (ps !!! i) = false) (seq 0 (length ps)).

(** ** Round lifecycle *)

Definition showRollSection (w : World) : World := showSection roll_section w.

(** One button per die of the human player; each remembers its [sides]. *)
Definition showDieSelector (human : Player) (w : World) : World :=
  showSection die_selector (set_dieOptions (dice human) w).

(** The click handler of the die button made for [sides]. *)
Definition dieOptClick (sides : Z) (w : World) : World :=
  showRollSection (hideSection die_selector
    (modPlayer 0 (set_chosenDie sides) w)).

Definition hideAll (w : World) : World :=
  foldl (λ w id, hideSection id w) w
    [die_selector; roll_section; results_section; choice_section;
     continue_section].

(** [startRound()]; [None] is the [TypeError] of reading
    [state.players[0].eliminated] when there is no player. Where
    [human.dice] is empty, [human.dice[0]] is [undefined]; it is [0]
    here, which rolls the same: the loop of [rollForRound] does not
    run. *)
Definition startRound (w : World) : option World :=
  let w := set_round_no (S (round (state w))) w in
  let w := set_phase select_die w in
  let w := hideAll w in
  let w := set_players
    ((λ p, if bool_decide (isHuman p = false ∧ eliminated p = false)
           then set_chosenDie (bestDie p) p else p) <$> players (state w)) w in
  human ← players (state w) !! 0%nat;
  if eliminated human then Some (showRollSection w)
  else if decide (1 < length (dice human))%nat
       then Some (showDieSelector human w)
       else Some (showRollSection
                    (modPlayer 0 (set_chosenDie (default 0 (head (dice human)))) w)).

(** [initGame()] for the difficulty and the number of opponents read
    from the page, and the arrangement [names] that the random sort of
    [AI_NAMES] produced. Past its end [names[i]] is [undefined], here the
    empty string: a name is only ever displayed. *)
Definition initGame (d : Difficulty) (n : nat) (names : list string)
    (w : World) : option World :=
  let ps := newPlayer "You" true
            :: ((λ i, newPlayer (names !!! i) false) <$> seq 0 n) in
  let w := mkWorld (mkState ps [] 0 d n select_die) (dom w) (pending w) in
  startRound (showScreen game_screen w).

(** [endGame(winner)] *)
Definition endGame (winner : option nat) (w : World) : World :=
  showScreen win_screen (set_announced (Some winner) (set_phase over w)).

(** [checkWinCondition(roundWinner)]; the argument is not used. [None]
    is the [TypeError] of reading [state.players[0]] of an empty array. *)
Definition checkWinCondition (w : World) : option World :=
  let ps := players (state w) in
  let target := targetD100s (difficulty (state w)) in
  match list_find (λ p, (target ≤ d100Count p)%nat) ps with
  | Some (i, _) => Some (endGame (Some i) w)
  | None =>
      let alive := activePlayers ps in
      if decide (length alive = 1%nat) then Some (endGame (head alive) w)
      else
        human ← ps !! 0%nat;
        if eliminated human then Some (endGame None w)
        else Some (set_phase continue (showSection continue_section w))
  end.

Definition showHumanChoice (winner : nat) (w : World) : World :=
  let p := players (state w) !!! winner in
  let idx := indexOf (chosenDie p) DICE_SIDES in
  let canUpgrade := bool_decide (idx < Z.of_nat (length DICE_SIDES) - 1) in
  set_phase choice (showSection choice_section
    (set_upgradeDisabled (negb canUpgrade) w)).

(** [applyHumanChoice(choice)] *)
Definition applyHumanChoice (c : string) (w : World) : option World :=
  winner ← players (state w) !! 0%nat;
  let w := modPlayer 0 (λ p, (applyChoice c p).2) w in
  let w := hideSection results_section (hideSection choice_section w) in
  checkWinCondition w.

(** The body of [losers.forEach] in [resolveRound]. *)
Definition loseStep (acc : World * Rng) (i : nat) : World * Rng :=
  let '(w, rng) := acc in
  let '(lost, p, rng) := loseRandomDie (players (state w) !!! i) rng in
  let w := set_players (<[i := p]> (players (state w))) w in
  let w := match lost with
           | Some d => set_pool (pool (state w) ++ [d]) w
           | None => w
           end in
  let w := if decide (length (dice p) = 0%nat)
           then modPlayer i (set_eliminated true) w else w in
  (w, rng).

Definition maxScoreOf (ps : list Player) (active : list nat) : Z :=
  foldl (λ m i, if decide (roundScore (ps !!! i) > m)
                then roundScore (ps !!! i) else m) (-1) active.

Record Resolved := mkResolved {
  res_world : World;
  res_winner : nat;
  res_losers : list nat;
  res_rng : Rng
}.

(** [resolveRound(active)], which ends by setting the timer of the
    winner's choice. [None] is the [TypeError] of reading [winner.name]
    when [tied] is empty. *)
Definition resolveRound (active : list nat) (w : World) (rng : Rng)
    : option Resolved :=
  let ps := players (state w) in
  let maxScore := maxScoreOf ps active in
  let tied := filter (λ i, roundScore (ps !!! i) = maxScore) active in
  let (u, rng) := next rng in
  winner ← tied !! Z.to_nat (floor_times u (Z.of_nat (length tied)));
  let w := set_phase resolving w in
  let w := showSection results_section w in
  let losers := filter (λ i, i ≠ winner) active in
  let '(w, rng) := foldl loseStep (w, rng) losers in
  let w := set_pending (Some (ChoiceTimer winner)) w in
  Some (mkResolved w winner losers rng).

(** The callback of the timer [resolveRound] sets: the winner's
    choice. *)
Definition winnerChoice (winner : nat) (w : World) : option World :=
  let p := players (state w) !!! winner in
  if isHuman p then Some (showHumanChoice winner w)
  else
    let c := getAIChoice p in
    checkWinCondition (modPlayer winner (λ p, (applyChoice c p).2) w).

Definition rollAll (active : list nat) (w : World) (rng : Rng) : World * Rng :=
  foldl (λ acc i,
           let '(w, rng) := acc in
           let '(p, rng) := rollForRound (players (state w) !!! i) rng in
           (set_players (<[i := p]> (players (state w))) w, rng))
        (w, rng) active.

(** [executeRound()], which ends by setting the timer of
    [resolveRound(active)]. *)
Definition executeRound (w : World) (rng : Rng) : World :=
  let w := set_phase rolling (hideSection roll_section w) in
  let active := activePlayers (players (state w)) in
  let '(w, _) := rollAll active w rng in
  set_pending (Some (ResolveTimer active)) w.

(** The click handler of the continue button. *)
Definition continueClick (w : World) : option World :=
  startRound (hideSection results_section (hideSection continue_section w)).

(** ** Buttons *)

Definition AI_NAMES : list string :=
  ["Aria"; "Bram"; "Cleo"; "Dax"; "Ember"; "Finn"; "Gwen"].

(** The clicks the page can receive. [StartBtn] carries what [initGame]
    reads from the page and the arrangement its random sort produced;
    [DieOptBtn k] is the [k]-th button of the die selector; [RollBtn]
    and [TimerFires] carry the values [Math.random()] returns while the
    handler runs. *)
Inductive Event :=
  | StartBtn (d : Difficulty) (n : nat) (names : list string)
  | PlayAgainBtn
  | DieOptBtn (k : nat)
  | RollBtn (rng : Rng)
  | DuplicateBtn
  | UpgradeBtn
  | ContinueBtn
  | TimerFires (rng : Rng).

(** A section of the game screen can be clicked when that screen is the
    active one and the section is not hidden. *)
Definition visible (id : SectionId) (w : World) : Prop :=
  screen (dom w) = game_screen ∧ hidden (dom w) id = false.

Definition enabled (e : Event) (w : World) : Prop :=
  match e with
  | StartBtn _ _ names => screen (dom w) = setup_screen ∧ names ≡ₚ AI_NAMES
  | PlayAgainBtn => screen (dom w) = win_screen
  | DieOptBtn k => visible die_selector w ∧ is_Some (dieOptions (dom w) !! k)
  | RollBtn _ => visible roll_section w
  | DuplicateBtn => visible choice_section w
  | UpgradeBtn => visible choice_section w ∧ upgradeDisabled (dom w) = false
  | ContinueBtn => visible continue_section w
  | TimerFires _ => is_Some (pending w)
  end.

(** The handler of each event, run to completion; [None] is an uncaught
    [TypeError]. A timer that fires is no longer pending. *)
Definition handle (e : Event) (w : World) : option World :=
  match e with
  | StartBtn d n names => initGame d n names w
  | PlayAgainBtn => Some (showScreen setup_screen w)
  | DieOptBtn k => sides ← dieOptions (dom w) !! k; Some (dieOptClick sides w)
  | RollBtn rng => Some (executeRound w rng)
  | DuplicateBtn => applyHumanChoice "duplicate" w
  | UpgradeBtn => applyHumanChoice "upgrade" w
  | ContinueBtn => continueClick w
  | TimerFires rng =>
      match pending w with
      | Some (ResolveTimer active) =>
          res_world <$> resolveRound active (set_pending None w) rng
      | Some (ChoiceTimer winner) => winnerChoice winner (set_pending None w)
      | None => None
      end
  end.

(** The page as loaded: [state] has its initial value, the setup
    screen is the active one and no timer is set. *)
Definition pageLoaded (w : World) : Prop :=
  state w = state0 ∧ screen (dom w) = setup_screen ∧ pending w = None.

Inductive Reachable : World → Prop :=
  | reach_load w : pageLoaded w → Reachable w
  | reach_event w e w' :
      Reachable w → enabled e w → handle e w = Some w' → Reachable w'.

(** ** Predicates of the statements *)

(** What a loser's [dice] may look like after the round, for the value
    [l] its [loseRandomDie()] returned: one entry [d] gone, or no
    change. *)
Definition lostDie (p p' : Player) (l : option Z) : Prop :=
  match l with
  | Some d =>
      ∃ k, dice p !! k = Some d ∧ dice p' = delete k (dice p) ∧
           (madeFirstChoice p = false → Z.of_nat k ≠ indexOf 4 (dice p))
  | None => dice p' = dice p
  end.

(** A loser [p] after the loop body of [resolveRound]: [dice] as
    [lostDie] says, [eliminated] set if no die is left, the rest as it
    was. *)
Definition loserAfter (p p' : Player) (l : option Z) : Prop :=
  lostDie p p' l ∧
  eliminated p' = (if decide (dice p' = []) then true else eliminated p) ∧
  name p' = name p ∧ isHuman p' = isHuman p ∧
  madeFirstChoice p' = madeFirstChoice p ∧ chosenDie p' = chosenDie p ∧
  roundScore p' = roundScore p ∧ roundRolls p' = roundRolls p.

(** The two facts about a player that hold between any two clicks. *)
Definition playerOk (p : Player) : Prop :=
  (dice p = [] ↔ eliminated p = true) ∧
  (madeFirstChoice p = false → dice p = [4]).

(** The fields of a player the rules depend on across rounds. *)
Definition core (p : Player) : bool * list Z * bool * bool :=
  (isHuman p, dice p, madeFirstChoice p, eliminated p).

Definition onlyFirstHuman (ps : list Player) : Prop :=
  ∀ i p, ps !! i = Some p → isHuman p = true → i = 0%nat.

Definition headAlive (ps : list Player) : Prop :=
  ∃ h rest, ps = h :: rest ∧ eliminated h = false.

(** How many things can fire next: the visible action sections and
    the pending timer. *)
Definition shown (w : World) (id : SectionId) : nat :=
  if hidden (dom w) id then 0%nat else 1%nat.

(** The number of visible button sections. *)
Definition buttons (w : World) : nat :=
  (shown w die_selector + shown w roll_section + shown w choice_section +
   shown w continue_section)%nat.

Definition busy (w : World) : nat :=
  (buttons w + match pending w with Some _ => 1 | None => 0 end)%nat.

(** What every reachable world satisfies. Each player is [playerOk] and
    only [players[0]] is human. A timer is pending on the game screen
    only, and there at most one button section is visible or one timer
    pending, never both. Between the roll and its resolution [active] is
    still the array of the players in the game, each with its roll made;
    before the winner's choice the winner is in the game; at all other
    times on the game screen the human player is in the game. *)
Definition Inv (w : World) : Prop :=
  let ps := players (state w) in
  Forall playerOk ps ∧
  onlyFirstHuman ps ∧
  (screen (dom w) ≠ game_screen → pending w = None) ∧
  (screen (dom w) = game_screen →
   (busy w ≤ 1)%nat ∧
   match pending w with
   | None => headAlive ps
   | Some (ResolveTimer active) =>
       headAlive ps ∧ active = activePlayers ps ∧
       ∀ i, i ∈ active → 0 ≤ roundScore (ps !!! i)
   | Some (ChoiceTimer winner) =>
       ∃ pw, ps !! winner = Some pw ∧ eliminated pw = false
   end).

(** ** Sample values *)

(** [Math.random()] returning [0], [0.5] and [1 - 2^-53]. *)
Definition u_zero : unit_double := UnitDouble 0 53 I.
Definition u_half : unit_double := UnitDouble (2 ^ 52) 53 I.
Definition u_top : unit_double := UnitDouble (2 ^ 53 - 1) 53 I.

Definition constRng (u : unit_double) : Rng := λ _, u.

Definition dom0 : Dom := mkDom setup_screen (λ _, true) [] false None.
Definition world0 : World := mkWorld state0 dom0 None.

(** A player holding [ds], with [chosen] selected. *)
Definition playerWith (h : bool) (ds : list Z) (mfc : bool) (chosen : Z)
    (score : Z) : Player :=
  mkPlayer (if h then "You" else "Aria") h ds mfc false chosen score [].

Definition worldWith (ps : list Player) (d : Difficulty) : World :=
  mkWorld (mkState ps [] 1 d (length ps - 1) choice)
          (mkDom game_screen (λ _, true) [] false None) None.

(** A player past the first choice, holding a D6 and two D4, with a D4
    selected. *)
Definition player_644 : Player := playerWith true [6; 4; 4] true 4 0.

(** A protected player holding two D4: no run of the game produces it,
    the methods of [Player] accept it. *)
Definition player_44 : Player := playerWith true [4; 4] false 4 0.

(** A player without dice. *)
Definition player_none : Player := playerWith false [] true 4 0.

(** A game on medium difficulty in which the human player holds one
    D100, has selected it and has just won the round. *)
Definition world_d100 : World :=
  worldWith [playerWith true [100] true 100 7; playerWith false [6] true 6 5]
            medium.

(** Three players after their rolls: the first two tie at 20. *)
Definition world_rolled : World :=
  worldWith [playerWith true [6; 4] true 6 20; playerWith false [4] false 4 20;
             playerWith false [6] true 6 9] easy.

(** The world after the events [es], skipping those whose handler
    throws. *)
Definition play (es : list Event) (w : World) : World :=
  foldl (λ w e, default w (handle e w)) w es.

(** A game of three on easy difficulty. In round 1 every draw is
    [1 - 2^-53]: all three roll 16 and the tie-break picks the last
    player, who upgrades to a D6. In round 2 only the human player's
    four draws are non-zero: the human player wins, the protected second
    player keeps its D4 and the third loses its D6 and is eliminated.
    [world_round2] is the world after that resolution, before the timer
    of the winner's choice fires. *)
Definition rng_round2 : Rng := λ i, if (i <? 4)%nat then u_top else u_zero.

Definition round1 : list Event :=
  [StartBtn easy 2 AI_NAMES; RollBtn (constRng u_top);
   TimerFires (constRng u_top); TimerFires (constRng u_top)].

Definition round2 : list Event :=
  [ContinueBtn; RollBtn rng_round2; TimerFires (constRng u_zero)].

Definition world_round2 : World := play (round1 ++ round2) world0.

(** ** Further sample values *)

(** A player whose selected die is none it holds. *)
Definition player_stray : Player := playerWith false [8; 6] false 4 0.

(** A player with nothing selected to roll: [bestDie] of no dice. *)
Definition player_zero : Player := playerWith false [] true 0 9.

(** An automated player holding a D20 and a D6, the D20 selected. *)
Definition player_ai : Player := playerWith false [20; 6] true 20 0.

(** ** Predicates of the further statements *)

(** Every die of the game: those of the players, then the pool. *)
Definition allDice (w : World) : list Z :=
  concat (dice <$> players (state w)) ++ pool (state w).

(** The players [initGame] makes. *)
Definition newPlayers (n : nat) (names : list string) : list Player :=
  newPlayer "You" true :: ((λ i, newPlayer (names !!! i) false) <$> seq 0 n).

(** A player's dice are in descending order and all of the table. *)
Definition diceOk (p : Player) : Prop :=
  StronglySorted desc (dice p) ∧ Forall (λ d, d ∈ DICE_SIDES) (dice p).

(** The selected die is one the player holds. *)
Definition holdsChosen (p : Player) : Prop := chosenDie p ∈ dice p.

Definition allHold (ps : list Player) (l : list nat) : Prop :=
  ∀ i, i ∈ l → holdsChosen (ps !!! i).

(** What of a player a roll leaves alone. *)
Definition static (p : Player) : string * (bool * list Z * bool * bool) * Z :=
  (name p, core p, chosenDie p).

(** [canUpgrade] of [showHumanChoice] for the player [p]. *)
Definition canUpgrade (p : Player) : bool :=
  bool_decide (indexOf (chosenDie p) DICE_SIDES < Z.of_nat (length DICE_SIDES) - 1).

(** What every reachable world satisfies besides [Inv]. The dice of
    every player are [diceOk] and the pool holds dice of the table
    only. While the game screen is active no player has reached the
    target, and a button or a timer is there to go on with. The die
    selector offers the dice of [players[0]], more than one, when every
    other player in the game has selected a die it holds; from the roll
    button to the resolution every player in the game has; from the
    resolution to the choice the winner has, and the upgrade button is
    disabled exactly if the table has no tier above the winner's
    selected die. *)
Definition DiceInv (w : World) : Prop :=
  let ps := players (state w) in
  Forall diceOk ps ∧
  Forall (λ d, d ∈ DICE_SIDES) (pool (state w)) ∧
  (screen (dom w) = game_screen →
   Forall (λ p, (d100Count p < targetD100s (difficulty (state w)))%nat) ps ∧
   (1 ≤ busy w)%nat ∧
   (hidden (dom w) die_selector = false →
    dieOptions (dom w) = dice (ps !!! 0%nat) ∧
    (1 < length (dieOptions (dom w)))%nat ∧
    ∀ i, i ∈ activePlayers ps → i ≠ 0%nat → holdsChosen (ps !!! i)) ∧
   (hidden (dom w) roll_section = false → allHold ps (activePlayers ps)) ∧
   (hidden (dom w) choice_section = false →
    holdsChosen (ps !!! 0%nat) ∧
    upgradeDisabled (dom w) = negb (canUpgrade (ps !!! 0%nat))) ∧
   match pending w with
   | Some (ResolveTimer active) => allHold ps active
   | Some (ChoiceTimer winner) => holdsChosen (ps !!! winner)
   | None => True
   end).

(** * Properties *)

(** ** The random products *)

Section random_products.

Local Opaque Z.pow.

(** Split on every comparison and parity test of [round53]. *)
Ltac round53_cases :=
  repeat match goal with
         | |- context [?a <? ?b] => destruct (Z.ltb_spec a b)
         | |- context [Z.even ?a] => destruct (Z.even a)
         end.

Lemma round53_small x : x < 2 ^ 53 → round53 x = x.
Proof.
  intros Hx. unfold round53.
  destruct (Z.ltb_spec x (2 ^ 53)); [done | lia].
Qed.

(** Above [2^53] the rounded value stays within half a unit in the
    last place of [x] and keeps the leading bit. *)
Lemma round53_large x :
  2 ^ 53 ≤ x →
  2 ^ Z.log2 x ≤ round53 x ≤ x + 2 ^ (Z.log2 x - 53).
Proof.
  intros Hx.
  assert (0 < 2 ^ 53) as Hp by (apply Z.pow_pos_nonneg; lia).
  assert (0 < x) as Hx0 by lia.
  destruct (Z.log2_spec x Hx0) as [Hlo Hhi].
  assert (53 ≤ Z.log2 x) as Hlog.
  { apply Z.log2_le_pow2; [lia | done]. }
  set (s := Z.log2 x - 52).
  assert (2 ^ s = 2 * 2 ^ (s - 1)) as Hs.
  { rewrite <- Z.pow_succ_r by lia. f_equal. lia. }
  assert (2 ^ Z.log2 x = 2 ^ 52 * 2 ^ s) as Hl.
  { rewrite <- Z.pow_add_r by lia. f_equal. lia. }
  assert (0 < 2 ^ (s - 1)) as Hh by (apply Z.pow_pos_nonneg; lia).
  assert (0 < 2 ^ 52) as Hp52 by (apply Z.pow_pos_nonneg; lia).
  assert (0 < 2 ^ s) as Hs0 by lia.
  pose proof (Z.div_mod x (2 ^ s) ltac:(lia)) as Hdm.
  pose proof (Z.mod_pos_bound x (2 ^ s) Hs0) as Hr.
  assert (2 ^ 52 ≤ x / 2 ^ s) as Hq.
  { apply Z.div_le_lower_bound; lia. }
  replace (Z.log2 x - 53) with (s - 1) by lia.
  unfold round53. destruct (Z.ltb_spec x (2 ^ 53)); [lia |].
  fold s.
  set (q := x / 2 ^ s) in *. set (r := x mod 2 ^ s) in *.
  assert (2 ^ Z.log2 x ≤ q * 2 ^ s) as Hql by (rewrite Hl; nia).
  round53_cases; nia.
Qed.

Lemma round53_nonneg x : 0 ≤ x → 0 ≤ round53 x.
Proof.
  intros Hx. destruct (decide (x < 2 ^ 53)) as [Hs | Hl].
  - by rewrite round53_small.
  - pose proof (round53_large x ltac:(lia)) as [Hlo _].
    pose proof (Z.pow_nonneg 2 (Z.log2 x) ltac:(lia)). lia.
Qed.

Lemma round53_pos x : 0 < x → 0 < round53 x.
Proof.
  intros Hx. destruct (decide (x < 2 ^ 53)) as [Hs | Hl].
  - by rewrite round53_small.
  - pose proof (round53_large x ltac:(lia)) as [Hlo _].
    pose proof (Z.pow_pos_nonneg 2 (Z.log2 x) ltac:(lia)
                  (Z.log2_nonneg x)). lia.
Qed.

(** The product of a double below 1 and [n] never rounds up to [n]. *)
Lemma round53_lt m n :
  0 ≤ m < 2 ^ 53 → 0 < n → round53 (m * n) < n * 2 ^ 53.
Proof.
  intros Hm Hn.
  assert (m * n ≤ n * 2 ^ 53 - n) as Hx by nia.
  destruct (decide (m * n < 2 ^ 53)) as [Hs | Hl].
  - rewrite round53_small by done. lia.
  - pose proof (round53_large (m * n) ltac:(lia)) as [_ Hup].
    assert (0 < m * n) as Hx0.
    { assert (0 < 2 ^ 53) by (apply Z.pow_pos_nonneg; lia). lia. }
    destruct (Z.log2_spec _ Hx0) as [Hlo _].
    assert (53 ≤ Z.log2 (m * n)) as Hlog.
    { apply Z.log2_le_pow2; [lia | lia]. }
    assert (2 ^ Z.log2 (m * n) = 2 ^ (Z.log2 (m * n) - 53) * 2 ^ 53) as Hl2.
    { rewrite <- Z.pow_add_r by lia. f_equal. lia. }
    assert (0 < 2 ^ 53) by (apply Z.pow_pos_nonneg; lia).
    nia.
Qed.

Lemma unit_double_range (u : unit_double) :
  0 ≤ mant u < 2 ^ 53 ∧ 53 ≤ expo u ≤ 1074.
Proof. destruct u as [m e H]. simpl. by apply bool_decide_unpack in H. Qed.

Lemma times_bounds u n : 0 < n → 0 ≤ times u n < n * 2 ^ expo u.
Proof.
  intros Hn. destruct (unit_double_range u) as [Hm He]. unfold times.
  split; [apply round53_nonneg; nia |].
  pose proof (round53_lt (mant u) n Hm Hn).
  assert (2 ^ 53 ≤ 2 ^ expo u) by (apply Z.pow_le_mono_r; lia).
  nia.
Qed.

(** [Math.floor(Math.random() * n)] is an index below [n]. *)
Lemma floor_times_bounds u n : 0 < n → 0 ≤ floor_times u n < n.
Proof.
  intros Hn. pose proof (times_bounds u n Hn) as [H0 H1].
  destruct (unit_double_range u) as [_ He].
  assert (0 < 2 ^ expo u) by (apply Z.pow_pos_nonneg; lia).
  unfold floor_times. split.
  - apply Z.div_pos; lia.
  - apply Z.div_lt_upper_bound; lia.
Qed.

(** [Math.ceil(Math.random() * n)] lies in [0 .. n]. *)
Lemma ceil_times_bounds u n : 0 < n → 0 ≤ ceil_times u n ≤ n.
Proof.
  intros Hn. pose proof (times_bounds u n Hn) as [H0 H1].
  destruct (unit_double_range u) as [_ He].
  assert (0 < 2 ^ expo u) as HE by (apply Z.pow_pos_nonneg; lia).
  unfold ceil_times.
  pose proof (Z.div_le_lower_bound (- times u n) (2 ^ expo u) (- n) HE
                ltac:(lia)).
  pose proof (Z.div_le_upper_bound (- times u n) (2 ^ expo u) 0 HE
                ltac:(lia)).
  lia.
Qed.

(** It is [0] exactly when [Math.random()] returned [0]. *)
Lemma ceil_times_zero u n : mant u = 0 → ceil_times u n = 0.
Proof.
  intros Hm. unfold ceil_times, times. rewrite Hm, Z.mul_0_l.
  rewrite round53_small by (apply Z.pow_pos_nonneg; lia).
  by rewrite Z.opp_0, Zdiv_0_l.
Qed.

Lemma ceil_times_pos u n : 0 < n → 0 < mant u → 1 ≤ ceil_times u n.
Proof.
  intros Hn Hm.
  destruct (unit_double_range u) as [_ He].
  assert (0 < 2 ^ expo u) as HE by (apply Z.pow_pos_nonneg; lia).
  assert (0 < times u n) by (apply round53_pos; nia).
  unfold ceil_times.
  pose proof (Z.div_lt_upper_bound (- times u n) (2 ^ expo u) 0 HE
                ltac:(lia)).
  lia.
Qed.

Lemma round53_floor x :
  2 ^ 53 ≤ x →
  x / 2 ^ (Z.log2 x - 52) * 2 ^ (Z.log2 x - 52) ≤ round53 x.
Proof.
  intros Hx. unfold round53.
  assert (0 < 2 ^ 53) as Hp by (apply Z.pow_pos_nonneg; lia).
  assert (53 ≤ Z.log2 x) as Hlog by (apply Z.log2_le_pow2; lia).
  assert (0 < 2 ^ (Z.log2 x - 52)) as Hs by (apply Z.pow_pos_nonneg; lia).
  destruct (Z.ltb_spec x (2 ^ 53)); [lia |].
  round53_cases; nia.
Qed.

(** For an array of [n] entries, every index [k] is the value of
    [Math.floor(Math.random() * n)] for some value of [Math.random()]. *)
Lemma floor_times_onto n k :
  0 < n < 2 ^ 52 → 0 ≤ k < n → ∃ u, floor_times u n = k.
Proof.
  intros Hn Hk.
  assert (0 < 2 ^ 53) as Hp by (apply Z.pow_pos_nonneg; lia).
  assert (2 ^ 53 = 2 * 2 ^ 52) as Hp2.
  { rewrite <- Z.pow_succ_r by lia. done. }
  set (m := (k * 2 ^ 53 + n - 1) / n).
  assert (k * 2 ^ 53 ≤ m * n ≤ k * 2 ^ 53 + n - 1) as Hm.
  { unfold m.
    pose proof (Z.div_mod (k * 2 ^ 53 + n - 1) n ltac:(lia)).
    pose proof (Z.mod_pos_bound (k * 2 ^ 53 + n - 1) n ltac:(lia)). nia. }
  assert (0 ≤ m < 2 ^ 53) as Hmr by nia.
  assert (k * 2 ^ 53 ≤ round53 (m * n) < (k + 1) * 2 ^ 53) as Hr.
  { destruct (decide (m * n < 2 ^ 53)) as [Hs | Hl].
    - rewrite round53_small by done. nia.
    - pose proof (round53_large (m * n) ltac:(lia)) as [_ Hup].
      pose proof (round53_floor (m * n) ltac:(lia)) as Hlo.
      assert (0 < m * n) as Hx0 by lia.
      destruct (Z.log2_spec _ Hx0) as [Hlog2 _].
      assert (53 ≤ Z.log2 (m * n)) as Hlog by (apply Z.log2_le_pow2; lia).
      assert (Z.log2 (m * n) < 105) as Hlog'.
      { apply Z.log2_lt_pow2; [lia |].
        replace 105 with (52 + 53) by lia. rewrite Z.pow_add_r by lia. nia. }
      set (s := Z.log2 (m * n) - 52) in *.
      assert (0 < 2 ^ s) as Hs by (apply Z.pow_pos_nonneg; lia).
      assert (2 ^ 53 = 2 ^ (53 - s) * 2 ^ s) as Hsplit.
      { rewrite <- Z.pow_add_r by lia. f_equal. lia. }
      assert (2 ^ Z.log2 (m * n) = 2 ^ (Z.log2 (m * n) - 53) * 2 ^ 53) as Hl2.
      { rewrite <- Z.pow_add_r by lia. f_equal. lia. }
      split.
      + assert (k * 2 ^ (53 - s) ≤ m * n / 2 ^ s) as Hq.
        { apply Z.div_le_lower_bound; [done |]. nia. }
        nia.
      + nia. }
  assert (0 ≤ m < 2 ^ 53 ∧ 53 ≤ 53 ≤ 1074) as Hok by (split; [done | lia]).
  exists (UnitDouble m 53 (bool_decide_pack _ Hok)).
  unfold floor_times, times. cbn [mant expo].
  symmetry. apply (Z.div_unique_pos _ _ _ (round53 (m * n) - k * 2 ^ 53)); lia.
Qed.

End random_products.

(** ** Array helpers *)

Lemma sort_desc_perm l : sort_desc l ≡ₚ l.
Proof. apply merge_sort_Permutation. Qed.

Lemma sort_desc_sorted l : StronglySorted desc (sort_desc l).
Proof. apply StronglySorted_merge_sort; apply _. Qed.

Lemma sort_desc_length l : length (sort_desc l) = length l.
Proof. by rewrite sort_desc_perm. Qed.

Lemma sort_desc_nil_inv l : sort_desc l = [] → l = [].
Proof.
  intros H. apply Permutation_nil_r. rewrite <- H. symmetry. apply sort_desc_perm.
Qed.

Lemma indexOf_elem x l :
  x ∈ l →
  ∃ i, indexOf x l = Z.of_nat i ∧ l !! i = Some x ∧
       ∀ j, (j < i)%nat → l !! j ≠ Some x.
Proof.
  intros Hx. unfold indexOf.
  destruct (list_find (λ y, y = x) l) as [[i y] |] eqn:Hf.
  - apply list_find_Some in Hf as (Hi & -> & Hfirst).
    exists i. split_and!; [done | done |].
    intros j Hj Hl. by eapply Hfirst.
  - apply list_find_None in Hf. rewrite Forall_forall in Hf.
    by destruct (Hf x Hx).
Qed.

Lemma indexOf_not_elem x l : x ∉ l → indexOf x l = -1.
Proof.
  intros Hx. unfold indexOf.
  destruct (list_find (λ y, y = x) l) as [[i y] |] eqn:Hf; [| done].
  apply list_find_Some in Hf as (Hi & -> & _).
  destruct Hx. by eapply list_elem_of_lookup_2.
Qed.

(** ** [rollForRound] *)

Lemma rollLoop_eq n sides rolls score rng :
  rollLoop n sides rolls score rng =
  (rolls ++ rollsOf sides n rng, score + sumZ (rollsOf sides n rng),
   λ i, rng (n + i)%nat).
Proof.
  revert rolls score rng. induction n as [| n IH]; intros rolls score rng.
  - simpl. by rewrite app_nil_r, Z.add_0_r.
  - cbn [rollLoop next]. rewrite IH. unfold rollsOf.
    cbn [seq fmap list_fmap]. rewrite <- fmap_S_seq, <- list_fmap_compose.
    rewrite <- app_assoc. cbn [app sumZ foldr]. unfold compose.
    f_equal. f_equal. unfold sumZ. lia.
Qed.

Lemma rollForRound_eq p rng :
  let n := Z.to_nat (chosenDie p) in
  rollForRound p rng =
  (set_round (rollsOf (chosenDie p) n rng) (sumZ (rollsOf (chosenDie p) n rng)) p,
   λ i, rng (n + i)%nat).
Proof. unfold rollForRound. by rewrite rollLoop_eq. Qed.

(** What [rollForRound] does guarantee: [chosenDie] rolls, each in
    [0 .. chosenDie], summed into [roundScore]; a roll is [0] only for
    a draw that is [0]. Nothing else of the player changes. *)
Lemma rollForRound_rolls p rng :
  let p' := (rollForRound p rng).1 in
  length (roundRolls p') = Z.to_nat (chosenDie p) ∧
  roundScore p' = sumZ (roundRolls p') ∧
  Forall (λ r, 0 ≤ r ≤ chosenDie p) (roundRolls p') ∧
  ((∀ k, (k < Z.to_nat (chosenDie p))%nat → 0 < mant (rng k)) →
   Forall (λ r, 1 ≤ r ≤ chosenDie p) (roundRolls p')) ∧
  p' = set_round (roundRolls p') (roundScore p') p.
Proof.
  rewrite rollForRound_eq. cbn. unfold rollsOf.
  split_and!; [by rewrite length_fmap, length_seq | done | | | done].
  - apply Forall_fmap, Forall_forall. intros k Hk.
    apply elem_of_seq in Hk. apply ceil_times_bounds. lia.
  - intros Hpos. apply Forall_fmap, Forall_forall. intros k Hk.
    apply elem_of_seq in Hk. cbn.
    pose proof (ceil_times_bounds (rng k) (chosenDie p) ltac:(lia)).
    pose proof (ceil_times_pos (rng k) (chosenDie p) ltac:(lia)
                  (Hpos k ltac:(lia))).
    lia.
Qed.

Lemma sumZ_nonneg l : Forall (λ r, 0 ≤ r) l → 0 ≤ sumZ l.
Proof. induction 1; cbn; [done | unfold sumZ in *; lia]. Qed.

Lemma rollForRound_score_nonneg p rng :
  0 ≤ roundScore (rollForRound p rng).1.
Proof.
  destruct (rollForRound_rolls p rng) as (_ & -> & Hr & _).
  apply sumZ_nonneg. eapply Forall_impl; [exact Hr |]. cbn. lia.
Qed.

(** C1, at the failing input: a player rolling the starting D4 while
    [Math.random()] returns [0] gets four rolls, stored in [roundRolls]
    and summed in [roundScore], but each roll is [0], outside
    [1 .. 4]. *)
Theorem rollForRound_rolls_zero :
  let p := (rollForRound (newPlayer "You" true) (constRng u_zero)).1 in
  chosenDie p = 4 ∧ roundRolls p = [0; 0; 0; 0] ∧ roundScore p = 0 ∧
  ¬ Forall (λ r, 1 ≤ r ≤ 4) (roundRolls p).
Proof.
  split_and!; [done | by vm_compute | by vm_compute |].
  intros H. apply Forall_inv in H. vm_compute in H. by destruct H as [H _].
Qed.

(** ** [applyChoice] *)

Lemma applyChoice_duplicate_eq p :
  applyChoice "duplicate" p =
  (chosenDie p,
   set_dice (sort_desc (dice p ++ [chosenDie p])) (set_madeFirstChoice true p)).
Proof. unfold applyChoice. by rewrite decide_True. Qed.

Lemma applyChoice_upgrade_eq p :
  applyChoice "upgrade" p =
  (chosenDie p,
   set_dice
     (sort_desc
        (let idx := indexOf (chosenDie p) DICE_SIDES in
         let nextIdx := Z.min (idx + 1) (Z.of_nat (length DICE_SIDES) - 1) in
         let dieIdx := indexOf (chosenDie p) (dice p) in
         if decide (dieIdx ≠ -1)
         then <[Z.to_nat dieIdx := DICE_SIDES !!! Z.to_nat nextIdx]> (dice p)
         else dice p))
     (set_madeFirstChoice true p)).
Proof. unfold applyChoice. by rewrite decide_False. Qed.

(** C7: [applyChoice('duplicate')] returns the die that was chosen and
    sets [madeFirstChoice]; [dice] is one longer, and holds what it held
    plus one more die of the chosen tier, in descending order. The
    chosen die stays selected. *)
Theorem applyChoice_duplicate p :
  let (prevDie, p') := applyChoice "duplicate" p in
  prevDie = chosenDie p ∧
  madeFirstChoice p' = true ∧
  length (dice p') = S (length (dice p)) ∧
  dice p' ≡ₚ chosenDie p :: dice p ∧
  StronglySorted desc (dice p') ∧
  chosenDie p' = chosenDie p.
Proof.
  rewrite applyChoice_duplicate_eq. cbn [dice set_dice set_madeFirstChoice
    madeFirstChoice chosenDie].
  split_and!; [done | done | | | apply sort_desc_sorted | done].
  - rewrite sort_desc_length, length_app. cbn. lia.
  - rewrite sort_desc_perm. by rewrite Permutation_app_comm.
Qed.

(** The table entry [applyChoice('upgrade')] writes for a die of the
    table: the next one, or the last one again. *)
Lemma upgrade_target d i :
  DICE_SIDES !! i = Some d →
  indexOf d DICE_SIDES = Z.of_nat i ∧
  DICE_SIDES !!!
    Z.to_nat (Z.min (indexOf d DICE_SIDES + 1) (Z.of_nat (length DICE_SIDES) - 1))
  = default 100 (DICE_SIDES !! S i).
Proof.
  intros Hi.
  do 7 (destruct i as [| i]; [injection Hi as <-; by vm_compute |]).
  done.
Qed.

(** C6: for a chosen die of the table that the player holds,
    [applyChoice('upgrade')] returns it and sets [madeFirstChoice];
    [dice] keeps its length and is sorted descending. Below the last
    tier, the first entry equal to the chosen die is the one that
    becomes its successor in the table and every other entry is kept; at
    the last tier [dice] keeps all its entries. *)
Theorem applyChoice_upgrade p :
  chosenDie p ∈ DICE_SIDES →
  chosenDie p ∈ dice p →
  let (prevDie, p') := applyChoice "upgrade" p in
  prevDie = chosenDie p ∧
  madeFirstChoice p' = true ∧
  length (dice p') = length (dice p) ∧
  StronglySorted desc (dice p') ∧
  (chosenDie p ≠ 100 →
   ∃ i succ l1 l2,
     DICE_SIDES !! i = Some (chosenDie p) ∧ DICE_SIDES !! S i = Some succ ∧
     dice p = l1 ++ chosenDie p :: l2 ∧ (chosenDie p ∉ l1) ∧
     dice p' ≡ₚ l1 ++ succ :: l2) ∧
  (chosenDie p = 100 → dice p' ≡ₚ dice p).
Proof.
  intros Htab Hheld. rewrite applyChoice_upgrade_eq.
  cbn [dice set_dice set_madeFirstChoice madeFirstChoice chosenDie].
  cbv zeta.
  destruct (indexOf_elem _ _ Hheld) as (k & Hk & Hlk & Hfirst).
  apply list_elem_of_lookup in Htab as [i Hi].
  destruct (upgrade_target _ _ Hi) as [Hidx Hnext].
  rewrite Hk, Hnext, Nat2Z.id.
  destruct (decide (Z.of_nat k ≠ -1)) as [_ | ?]; [| lia].
  pose proof (lookup_lt_Some _ _ _ Hlk) as Hlt.
  split_and!; [done | done | | apply sort_desc_sorted | |].
  - by rewrite sort_desc_length, length_insert.
  - intros Hne.
    assert (∃ succ, DICE_SIDES !! S i = Some succ) as [succ Hs].
    { do 6 (destruct i as [| i]; [by eexists |]).
      destruct i; [injection Hi as Hi; by rewrite <- Hi in Hne | done]. }
    exists i, succ, (take k (dice p)), (drop (S k) (dice p)).
    rewrite Hs. cbn.
    split_and!; [done | done | by rewrite take_drop_middle | |].
    + intros Hin. apply list_elem_of_lookup in Hin as [j Hj].
      pose proof (lookup_lt_Some _ _ _ Hj) as Hjl.
      rewrite length_take in Hjl. rewrite lookup_take_lt in Hj by lia.
      apply (Hfirst j); [lia | done].
    + by rewrite sort_desc_perm, insert_take_drop.
  - intros H100. rewrite H100 in Hi.
    assert (i = 6%nat) as ->.
    { do 7 (destruct i as [| i]; [by first [injection Hi | idtac] |]).
      done. }
    cbn. rewrite sort_desc_perm, <- H100. by rewrite list_insert_id.
Qed.

Lemma applyChoice_upgrade_witness :
  chosenDie player_644 ∈ DICE_SIDES ∧
  chosenDie player_644 ∈ dice player_644 ∧
  let (prevDie, p') := applyChoice "upgrade" player_644 in
  prevDie = 4 ∧ length (dice p') = 3%nat.
Proof.
  assert (chosenDie player_644 ∈ DICE_SIDES) as H1.
  { by apply (list_elem_of_lookup_2 _ 0%nat). }
  assert (chosenDie player_644 ∈ dice player_644) as H2.
  { by apply (list_elem_of_lookup_2 _ 1%nat). }
  split_and!; [exact H1 | exact H2 |].
  pose proof (applyChoice_upgrade player_644 H1 H2) as H.
  destruct (applyChoice "upgrade" player_644) as [prevDie p'].
  destruct H as (-> & _ & -> & _). done.
Defined.

(** ** [loseRandomDie] *)

Lemma eligibleDice_None p :
  eligibleDice p = None ↔
  dice p = [] ∨ (madeFirstChoice p = false ∧ dice p = [4]).
Proof.
  unfold eligibleDice, isProtected.
  destruct (dice p) as [| d l] eqn:Hd; cbn [length].
  { rewrite decide_True by done. split; [by left | done]. }
  rewrite decide_False by done.
  destruct (madeFirstChoice p); cbn [negb];
    [split; [done | by intros [? | [? _]]] |].
  destruct (decide (4 ∈ d :: l)) as [H4 | H4].
  - destruct (indexOf_elem _ _ H4) as (k & -> & Hk & _).
    rewrite decide_True by lia.
    destruct l as [| d' l].
    + rewrite decide_True by done. apply list_elem_of_singleton in H4.
      subst d. split; [by right | done].
    + rewrite decide_False by (cbn; lia).
      case_decide as Hlen; [| split; [done | by intros [? | [_ ?]]]].
      exfalso. apply length_zero_iff_nil in Hlen.
      destruct k as [| k].
      * assert (1%nat ∈ @nil nat) as Hin; [| by apply not_elem_of_nil in Hin].
        rewrite <- Hlen. apply list_elem_of_filter. split; [lia |].
        apply elem_of_seq. cbn. lia.
      * assert (0%nat ∈ @nil nat) as Hin; [| by apply not_elem_of_nil in Hin].
        rewrite <- Hlen. apply list_elem_of_filter. split; [lia |].
        apply elem_of_seq. cbn. lia.
  - rewrite indexOf_not_elem by done. rewrite decide_False by lia.
    rewrite decide_False by (rewrite length_seq; done).
    split; [done |]. intros [? | [_ Heq]]; [done |].
    rewrite Heq in H4. destruct H4. by left.
Qed.

Lemma eligibleDice_Some p e :
  eligibleDice p = Some e →
  e ≠ [] ∧
  ∀ i, i ∈ e →
    (i < length (dice p))%nat ∧
    (madeFirstChoice p = false → Z.of_nat i ≠ indexOf 4 (dice p)).
Proof.
  unfold eligibleDice, isProtected. intros He.
  case_decide as Hlen; [done |].
  destruct (madeFirstChoice p); cbn [negb] in He.
  - injection He as <-. split.
    + intros Hs. apply (f_equal length) in Hs. by rewrite length_seq in Hs.
    + intros i Hi. apply elem_of_seq in Hi. split; [lia | done].
  - case_decide as Hd4.
    + case_decide as Hone; [done |]. case_decide as Hempty; [done |].
      injection He as <-. split; [by intros Hnil; rewrite Hnil in Hempty |].
      intros i Hi. apply list_elem_of_filter in Hi as [Hne Hi].
      apply elem_of_seq in Hi. split; [lia | done].
    + case_decide as Hempty; [done |].
      injection He as <-. split; [by intros Hnil; rewrite Hnil in Hempty |].
      intros i Hi. apply elem_of_seq in Hi. split; [lia |].
      assert (indexOf 4 (dice p) = -1) as -> by lia. lia.
Qed.

(** The two ways a call of [loseRandomDie] ends: without a loss and
    without a draw, or with the die at one eligible position removed
    after one draw. *)
Lemma loseRandomDie_cases p rng :
  (loseRandomDie p rng = (None, p, rng) ∧
   (dice p = [] ∨ (madeFirstChoice p = false ∧ dice p = [4]))) ∨
  (∃ pick d,
     loseRandomDie p rng =
       (Some d, set_dice (delete pick (dice p)) p, λ i, rng (S i)) ∧
     dice p !! pick = Some d ∧
     (madeFirstChoice p = false → Z.of_nat pick ≠ indexOf 4 (dice p))).
Proof.
  unfold loseRandomDie.
  destruct (eligibleDice p) as [e |] eqn:He.
  - right. destruct (eligibleDice_Some _ _ He) as [Hne Hin].
    cbn [next].
    set (k := Z.to_nat (floor_times (rng 0%nat) (Z.of_nat (length e)))).
    assert (k < length e)%nat as Hk.
    { destruct e; [done |].
      pose proof (floor_times_bounds (rng 0%nat) (Z.of_nat (length (n :: e)))
                    ltac:(cbn; lia)).
      unfold k. lia. }
    pose proof (list_lookup_lookup_total_lt e k Hk) as Hpick.
    destruct (Hin (e !!! k)) as [Hlt Hd4].
    { eapply list_elem_of_lookup_2, Hpick. }
    exists (e !!! k), (dice p !!! (e !!! k)).
    split_and!; [done | by apply list_lookup_lookup_total_lt | done].
  - left. split; [done |]. by apply eligibleDice_None.
Qed.

(** C10: on a player without dice, [loseRandomDie()] returns [null],
    draws nothing and changes nothing. *)
Theorem loseRandomDie_empty p rng :
  dice p = [] → loseRandomDie p rng = (None, p, rng).
Proof.
  intros Hd. unfold loseRandomDie.
  assert (eligibleDice p = None) as ->; [| done].
  apply eligibleDice_None. by left.
Qed.

Lemma loseRandomDie_empty_witness :
  dice player_none = [] ∧
  loseRandomDie player_none (constRng u_half) =
    (None, player_none, constRng u_half).
Proof.
  split; [reflexivity |].
  apply (loseRandomDie_empty player_none (constRng u_half)). reflexivity.
Defined.

(** C2, as stated, fails: a protected player holding two D4 loses one
    of them. *)
Lemma loseRandomDie_protected_second_D4 :
  madeFirstChoice player_44 = false ∧
  ∃ p' rng', loseRandomDie player_44 (constRng u_zero) = (Some 4, p', rng') ∧
             dice p' = [4].
Proof. split; [done |]. eexists _, _. split; [reflexivity | done]. Qed.

(** C2, amended: for a protected player, the position of the first D4
    is never among the eligible ones, so the die removed is never that
    entry: a D4 held before the call is still held after it, and a
    player holding at most one D4 does not lose a D4. A protected player
    whose only die is the D4 gets [null] and is left unchanged. *)
Theorem loseRandomDie_protected p rng :
  madeFirstChoice p = false →
  let '(lost, p', _) := loseRandomDie p rng in
  (∀ e i, eligibleDice p = Some e → i ∈ e → Z.of_nat i ≠ indexOf 4 (dice p)) ∧
  match lost with
  | None => p' = p
  | Some d =>
      ∃ pick, dice p !! pick = Some d ∧ dice p' = delete pick (dice p) ∧
              Z.of_nat pick ≠ indexOf 4 (dice p)
  end ∧
  (4 ∈ dice p → 4 ∈ dice p') ∧
  ((∀ i j, dice p !! i = Some 4 → dice p !! j = Some 4 → i = j) →
   lost ≠ Some 4) ∧
  (dice p = [4] → lost = None ∧ p' = p).
Proof.
  intros Hprot.
  assert (∀ e i, eligibleDice p = Some e → i ∈ e →
                 Z.of_nat i ≠ indexOf 4 (dice p)) as Hel.
  { intros e i He Hi. destruct (eligibleDice_Some _ _ He) as [_ Hin].
    by apply Hin. }
  destruct (loseRandomDie_cases p rng)
    as [[-> Hnone] | (pick & d & -> & Hpick & Hne)].
  - split_and!; [done | done | done | done | done].
  - specialize (Hne Hprot).
    cbn [dice set_dice]. split_and!; [done | by exists pick | | |].
    + intros H4. destruct (indexOf_elem _ _ H4) as (k & Hk & Hlk & _).
      rewrite Hk in Hne.
      destruct (decide (k < pick)%nat).
      * apply (list_elem_of_lookup_2 _ k). by rewrite list_lookup_delete_lt.
      * destruct k as [| k]; [lia |].
        apply (list_elem_of_lookup_2 _ k).
        rewrite list_lookup_delete_ge by lia. done.
    + intros Huniq Hlost. injection Hlost as ->.
      assert (4 ∈ dice p) as H4 by by eapply list_elem_of_lookup_2.
      destruct (indexOf_elem _ _ H4) as (k & Hk & Hlk & _).
      rewrite Hk in Hne. specialize (Huniq _ _ Hpick Hlk). lia.
    + intros H4. exfalso. rewrite H4 in Hpick.
      destruct pick as [| pick]; [| done].
      rewrite H4 in Hne. by vm_compute in Hne.
Qed.

Lemma loseRandomDie_protected_witness :
  madeFirstChoice (newPlayer "You" true) = false ∧
  loseRandomDie (newPlayer "You" true) (constRng u_top) =
    (None, newPlayer "You" true, constRng u_top).
Proof.
  split; [reflexivity |].
  pose proof (loseRandomDie_protected (newPlayer "You" true) (constRng u_top)
                eq_refl) as H.
  destruct (loseRandomDie (newPlayer "You" true) (constRng u_top))
    as [[lost p'] rng'] eqn:E.
  destruct H as (_ & _ & _ & _ & H). destruct (H eq_refl) as [-> ->].
  vm_compute in E. injection E as <-. reflexivity.
Defined.

(** ** The players still in the game *)

Lemma activePlayers_elem ps i :
  i ∈ activePlayers ps ↔ ∃ p, ps !! i = Some p ∧ eliminated p = false.
Proof.
  unfold activePlayers. rewrite list_elem_of_filter, elem_of_seq. split.
  - intros [Hel [_ Hlt]]. cbn in Hlt.
    exists (ps !!! i). split; [by apply list_lookup_lookup_total_lt | done].
  - intros (p & Hi & Hel). pose proof (lookup_lt_Some _ _ _ Hi).
    rewrite (list_lookup_total_correct _ _ _ Hi). split; [done | lia].
Qed.

Lemma activePlayers_NoDup ps : NoDup (activePlayers ps).
Proof. apply NoDup_filter, NoDup_seq. Qed.

Lemma activePlayers_lt ps i : i ∈ activePlayers ps → (i < length ps)%nat.
Proof.
  intros (p & Hi & _)%activePlayers_elem. by eapply lookup_lt_Some.
Qed.

(** Reading the players at the references of [activePlayers] gives the
    array that [filter(p => !p.eliminated)] builds. *)
Lemma activePlayers_filter_from (all ps : list Player) k :
  (∀ i p, ps !! i = Some p → all !! (k + i)%nat = Some p) →
  (λ i, all !!! i) <$>
    filter (λ i, eliminated (all !!! i) = false) (seq k (length ps))
  = filter (λ p, eliminated p = false) ps.
Proof.
  revert k. induction ps as [| p ps IH]; intros k Hall; [done |].
  cbn [length seq]. rewrite !filter_cons.
  assert (all !!! k = p) as Hk.
  { apply list_lookup_total_correct. rewrite <- (Nat.add_0_r k).
    by apply Hall. }
  rewrite Hk, <- (IH (S k)).
  - destruct (decide (eliminated p = false)); [| done].
    cbn [fmap list_fmap]. by rewrite Hk.
  - intros i q Hi. replace (S k + i)%nat with (k + S i)%nat by lia.
    by apply Hall.
Qed.

Lemma activePlayers_filter ps :
  (λ i, ps !!! i) <$> activePlayers ps = filter (λ p, eliminated p = false) ps.
Proof. by apply (activePlayers_filter_from ps ps 0). Qed.

Lemma activePlayers_length ps :
  length (activePlayers ps) = length (filter (λ p, eliminated p = false) ps).
Proof. by rewrite <- activePlayers_filter, length_fmap. Qed.

(** ** [checkWinCondition] *)

(** C3: with at least the human player in [state.players],
    [checkWinCondition] ends the game exactly when some player has the
    target number of D100, or exactly one player is not eliminated, or
    the human player is eliminated. The conditions are tried in this
    order and only the first that holds fires: the first player of
    [state.players] with enough D100 wins, eliminated or not; failing
    that the sole survivor wins; failing that an eliminated human ends
    the game without a winner; otherwise the continue section is shown
    and the phase is [continue]. *)
Theorem checkWinCondition_outcome w human rest :
  players (state w) = human :: rest →
  let ps := players (state w) in
  let reached p := (targetD100s (difficulty (state w)) ≤ d100Count p)%nat in
  let survivors := filter (λ p, eliminated p = false) ps in
  ∃ w', checkWinCondition w = Some w' ∧
    (Exists reached ps →
     ∃ i p, ps !! i = Some p ∧ reached p ∧
            (∀ j q, ps !! j = Some q → (j < i)%nat → ¬ reached q) ∧
            w' = endGame (Some i) w) ∧
    (Forall (λ p, ¬ reached p) ps → length survivors = 1%nat →
     ∃ i p, ps !! i = Some p ∧ eliminated p = false ∧
            w' = endGame (Some i) w) ∧
    (Forall (λ p, ¬ reached p) ps → length survivors ≠ 1%nat →
     eliminated human = true → w' = endGame None w) ∧
    (Forall (λ p, ¬ reached p) ps → length survivors ≠ 1%nat →
     eliminated human = false →
     w' = set_phase continue (showSection continue_section w)) ∧
    (phase (state w') = over ↔
     Exists reached ps ∨ length survivors = 1%nat ∨ eliminated human = true).
Proof.
  intros Hps ps reached survivors. unfold checkWinCondition. fold ps.
  destruct (list_find _ ps) as [[i0 p0] |] eqn:Hfind.
  - apply list_find_Some in Hfind as (Hi0 & Hr0 & Hfirst0).
    eexists. split; [done |]. split_and!.
    + intros _. exists i0, p0. split_and!; [done | done | | done].
      intros j q Hj Hlt. by apply (Hfirst0 j q).
    + intros Hnone. rewrite Forall_forall in Hnone.
      destruct (Hnone p0); [by eapply list_elem_of_lookup_2 | done].
    + intros Hnone. rewrite Forall_forall in Hnone.
      destruct (Hnone p0); [by eapply list_elem_of_lookup_2 | done].
    + intros Hnone. rewrite Forall_forall in Hnone.
      destruct (Hnone p0); [by eapply list_elem_of_lookup_2 | done].
    + split; [| done]. intros _. left. apply Exists_exists.
      exists p0. split; [by eapply list_elem_of_lookup_2 | done].
  - apply list_find_None in Hfind.
    assert (¬ Exists reached ps) as Hnex.
    { intros (p & Hp & Hr)%Exists_exists. rewrite Forall_forall in Hfind.
      by apply (Hfind p). }
    pose proof (activePlayers_length ps) as Hlen. fold survivors in Hlen.
    assert (ps !! 0%nat = Some human) as Hhuman by (unfold ps; by rewrite Hps).
    rewrite Hhuman. cbn [mbind option_bind].
    case_decide as Hone.
    + eexists. split; [done |].
      destruct (activePlayers ps) as [| i [| ? ?]] eqn:Hact; [done | | done].
      assert (i ∈ activePlayers ps) as Hi by (rewrite Hact; by left).
      apply activePlayers_elem in Hi as (p & Hi & Hel).
      split_and!.
      * done.
      * intros _ _. by exists i, p.
      * intros _ Hne. lia.
      * intros _ Hne. lia.
      * split; [| done]. intros _. right. left. lia.
    + destruct (eliminated human) eqn:Hel.
      * eexists. split; [done |].
        split_and!; [done | intros _ Hl; lia | done | done |].
        split; [| done]. intros _. by right; right.
      * eexists. split; [done |].
        split_and!; [done | intros _ Hl; lia | done | done |].
        cbn. split; [done |]. intros [? | [? | ?]]; [done | lia | done].
Qed.

Lemma checkWinCondition_outcome_witness :
  players (state world_d100) =
    playerWith true [100] true 100 7 :: [playerWith false [6] true 6 5] ∧
  checkWinCondition world_d100
  = Some (set_phase continue (showSection continue_section world_d100)).
Proof.
  split; [reflexivity |].
  destruct (checkWinCondition_outcome world_d100 _ _ eq_refl)
    as (w' & -> & _ & _ & _ & Hcont & _).
  f_equal. apply Hcont.
  - repeat constructor; vm_compute; lia.
  - vm_compute. lia.
  - reflexivity.
Defined.

Lemma checkWinCondition_state w w' :
  checkWinCondition w = Some w' →
  players (state w') = players (state w) ∧ pool (state w') = pool (state w) ∧
  round (state w') = round (state w).
Proof.
  unfold checkWinCondition. intros H.
  destruct (list_find _ _) as [[i p] |]; [by injection H as <- |].
  case_decide; [by injection H as <- |].
  destruct (players (state w) !! 0%nat) as [h |]; [| done].
  cbn in H. destruct (eliminated h); by injection H as <-.
Qed.

Lemma checkWinCondition_is_Some w :
  players (state w) ≠ [] → is_Some (checkWinCondition w).
Proof.
  intros Hne. unfold checkWinCondition.
  destruct (list_find _ _) as [[i p] |]; [done |].
  case_decide; [done |].
  destruct (players (state w)) as [| h rest]; [done |]. cbn.
  by destruct (eliminated h).
Qed.

(** ** The human player's choice *)

(** C5, as stated, fails: with the human player's selected die a D100,
    [applyHumanChoice('upgrade')] runs to its end; the player keeps the
    D100 and the game goes on. *)
Lemma applyHumanChoice_upgrade_terminal_accepted :
  chosenDie (players (state world_d100) !!! 0%nat) = 100 ∧
  ∃ w', applyHumanChoice "upgrade" world_d100 = Some w' ∧
        dice <$> players (state w') = [[100]; [6]] ∧
        phase (state w') = continue.
Proof. split; [done |]. eexists. split; [by vm_compute | done]. Qed.

(** C5, amended: with the selected die of the human player a D100,
    [applyChoice('upgrade')] writes a D100 over a D100: it returns 100
    and leaves [dice] as it was, sorted, with [madeFirstChoice] set.
    [applyHumanChoice('upgrade')] then runs the win check and completes.
    What keeps the request away is the page: [showHumanChoice] disables
    the upgrade button for a winner whose selected die is the D100. *)
Theorem applyHumanChoice_upgrade_terminal w human rest :
  players (state w) = human :: rest →
  chosenDie human = 100 →
  applyChoice "upgrade" human =
    (100, set_dice (sort_desc (dice human)) (set_madeFirstChoice true human)) ∧
  upgradeDisabled (dom (showHumanChoice 0 w)) = true ∧
  ∃ w', applyHumanChoice "upgrade" w = Some w' ∧
        players (state w') = (applyChoice "upgrade" human).2 :: rest.
Proof.
  intros Hps H100. split_and!.
  - rewrite applyChoice_upgrade_eq, H100. do 2 f_equal.
    cbv zeta. case_decide as Hidx; [| done].
    destruct (decide (100 ∈ dice human)) as [Hin | Hin].
    + destruct (indexOf_elem _ _ Hin) as (k & -> & Hk & _).
      rewrite Nat2Z.id. f_equal. by apply list_insert_id.
    + by rewrite indexOf_not_elem in Hidx.
  - unfold showHumanChoice. rewrite Hps. cbn. rewrite H100. done.
  - unfold applyHumanChoice. rewrite Hps. cbn [lookup list_lookup mbind option_bind].
    match goal with |- ∃ w', checkWinCondition ?w0 = _ ∧ _ =>
      destruct (checkWinCondition_is_Some w0) as [w' Hw'] end.
    { cbn. by rewrite Hps. }
    exists w'. split; [done |].
    apply checkWinCondition_state in Hw' as (-> & _). cbn. by rewrite Hps.
Qed.

Lemma applyHumanChoice_upgrade_terminal_witness :
  players (state world_d100) =
    playerWith true [100] true 100 7 :: [playerWith false [6] true 6 5] ∧
  chosenDie (playerWith true [100] true 100 7) = 100 ∧
  applyChoice "upgrade" (playerWith true [100] true 100 7) =
    (100, playerWith true [100] true 100 7).
Proof.
  split_and!; [reflexivity | reflexivity |].
  destruct (applyHumanChoice_upgrade_terminal world_d100 _ _ eq_refl eq_refl)
    as (-> & _). reflexivity.
Defined.

(** ** [resolveRound] *)

Lemma maxScore_fold (ps : list Player) (active : list nat) m0 :
  let step := λ m i, if decide (roundScore (ps !!! i) > m)
                     then roundScore (ps !!! i) else m in
  let m := foldl step m0 active in
  m0 ≤ m ∧
  (∀ i, i ∈ active → roundScore (ps !!! i) ≤ m) ∧
  (m = m0 ∨ ∃ i, i ∈ active ∧ roundScore (ps !!! i) = m).
Proof.
  cbv zeta. revert m0. induction active as [| a active IH]; intros m0.
  { cbn. split_and!; [lia | by intros i ?%not_elem_of_nil | by left]. }
  cbn [foldl].
  destruct (IH (if decide (roundScore (ps !!! a) > m0)
                then roundScore (ps !!! a) else m0)) as (Hle & Hall & Hex).
  split_and!.
  - case_decide; lia.
  - intros i [-> | Hi]%elem_of_cons; [case_decide; lia | by apply Hall].
  - destruct Hex as [Heq | (i & Hi & Heq)].
    + case_decide; [right | by left].
      exists a. split; [by left | done].
    + right. exists i. split; [by right | done].
Qed.

Lemma maxScoreOf_spec (ps : list Player) (active : list nat) :
  (∀ i, i ∈ active → roundScore (ps !!! i) ≤ maxScoreOf ps active) ∧
  (maxScoreOf ps active = -1 ∨
   ∃ i, i ∈ active ∧ roundScore (ps !!! i) = maxScoreOf ps active).
Proof. destruct (maxScore_fold ps active (-1)) as (_ & ? & ?). done. Qed.

Lemma alter_insert_same {A} (f : A → A) (l : list A) i x :
  alter f i (<[i := x]> l) = <[i := f x]> l.
Proof.
  apply list_eq. intros j. destruct (decide (i = j)) as [<- | Hne].
  - rewrite list_lookup_alter_eq.
    destruct (decide (i < length l)%nat).
    + by rewrite !list_lookup_insert_eq.
    + rewrite !list_insert_ge by lia. rewrite lookup_ge_None_2 by lia. done.
  - rewrite list_lookup_alter_ne by done.
    by rewrite !list_lookup_insert_ne.
Qed.

(** One pass of the loop body on the loser at reference [i]. *)
Lemma loseStep_spec w rng i p :
  players (state w) !! i = Some p →
  ∃ w' rng' l p',
    loseStep (w, rng) i = (w', rng') ∧
    players (state w') = <[i := p']> (players (state w)) ∧
    loserAfter p p' l ∧
    pool (state w') = pool (state w) ++ omap id [l] ∧
    dom w' = dom w ∧ pending w' = pending w ∧
    difficulty (state w') = difficulty (state w).
Proof.
  intros Hi. unfold loseStep. rewrite (list_lookup_total_correct _ _ _ Hi).
  destruct (loseRandomDie_cases p rng)
    as [[-> Hnone] | (pick & d & -> & Hpick & Hd4)].
  - cbn [dice set_dice]. unfold modPlayer. case_decide as Hlen.
    + eexists _, _, None, _. split; [done |]. cbn.
      rewrite alter_insert_same, app_nil_r.
      apply length_zero_iff_nil in Hlen.
      split; [done |]. split; [| done]. unfold loserAfter, lostDie.
      cbn [dice eliminated set_eliminated]. by rewrite decide_True.
    + eexists _, _, None, _. split; [done |]. cbn. rewrite app_nil_r.
      split; [done |]. split; [| done]. unfold loserAfter, lostDie.
      rewrite decide_False; [done |]. intros Hnil. by rewrite Hnil in Hlen.
  - cbn [dice set_dice]. unfold modPlayer. case_decide as Hlen.
    + eexists _, _, (Some d), _. split; [done |]. cbn.
      rewrite alter_insert_same.
      apply length_zero_iff_nil in Hlen.
      split; [done |]. split; [| done]. unfold loserAfter, lostDie.
      cbn [dice eliminated set_eliminated set_dice].
      rewrite decide_True by done. split; [by exists pick | done].
    + eexists _, _, (Some d), _. split; [done |]. cbn.
      split; [done |]. split; [| done]. unfold loserAfter, lostDie.
      cbn [dice eliminated set_eliminated set_dice].
      rewrite decide_False; [split; [by exists pick | done] |].
      intros Hnil. by rewrite Hnil in Hlen.
Qed.

(** The whole loop over distinct references. *)
Lemma loseLoop_spec losers w rng :
  NoDup losers →
  (∀ i, i ∈ losers → (i < length (players (state w)))%nat) →
  ∃ w' rng' lost,
    foldl loseStep (w, rng) losers = (w', rng') ∧
    length (players (state w')) = length (players (state w)) ∧
    (∀ j, j ∉ losers → players (state w') !! j = players (state w) !! j) ∧
    Forall2 (λ i l, ∃ p p', players (state w) !! i = Some p ∧
                            players (state w') !! i = Some p' ∧
                            loserAfter p p' l) losers lost ∧
    pool (state w') = pool (state w) ++ omap id lost ∧
    dom w' = dom w ∧ pending w' = pending w ∧
    difficulty (state w') = difficulty (state w).
Proof.
  revert w rng. induction losers as [| i losers IH]; intros w rng Hnd Hlt.
  { exists w, rng, []. cbn. rewrite app_nil_r. by split_and!. }
  apply NoDup_cons in Hnd as [Hi Hnd].
  destruct (lookup_lt_is_Some_2 (players (state w)) i) as [p Hp].
  { apply Hlt. by left. }
  destruct (loseStep_spec w rng i p Hp)
    as (w1 & rng1 & l & p' & Hstep & Hps1 & Hafter & Hpool1 & Hdom1 & Hpend1
        & Hdiff1).
  destruct (IH w1 rng1 Hnd) as (w' & rng' & lost & Hfold & Hlen & Hother
                                & Hall & Hpool & Hdom & Hpend & Hdiff).
  { intros j Hj. rewrite Hps1, length_insert. apply Hlt. by right. }
  exists w', rng', (l :: lost). cbn [foldl]. rewrite Hstep.
  split_and!; [done | | | | | congruence | congruence | congruence].
  - by rewrite Hlen, Hps1, length_insert.
  - intros j Hj. apply not_elem_of_cons in Hj as [Hne Hj].
    rewrite (Hother j Hj), Hps1. by apply list_lookup_insert_ne.
  - constructor.
    + exists p, p'. split_and!; [done | | done].
      rewrite (Hother i Hi), Hps1. apply list_lookup_insert_eq.
      by eapply lookup_lt_Some.
    + clear -Hps1 Hall Hi.
      induction Hall as [| j l' js ls (q & q' & Hq & Hq' & Hqa) Hrest IHr];
        constructor.
      * apply not_elem_of_cons in Hi as [Hne _]. exists q, q'.
        split_and!; [| done | done].
        rewrite Hps1 in Hq. by rewrite list_lookup_insert_ne in Hq.
      * apply IHr. by apply not_elem_of_cons in Hi as [_ ?].
  - rewrite Hpool, Hpool1, <- app_assoc. f_equal.
    cbn. by destruct l.
Qed.

(** [resolveRound] completes once every active player has rolled. *)
Lemma resolveRound_is_Some (active : list nat) w rng :
  active ≠ [] →
  (∀ i, i ∈ active → 0 ≤ roundScore (players (state w) !!! i)) →
  is_Some (resolveRound active w rng).
Proof.
  intros Hne Hrolled. set (ps := players (state w)).
  destruct (maxScoreOf_spec ps active) as [Hmax Hex].
  unfold resolveRound. cbn [next]. fold ps.
  set (tied := filter (λ i, roundScore (ps !!! i) = maxScoreOf ps active)
                      active).
  assert (tied ≠ []) as Htied.
  { destruct Hex as [Hm1 | (i & Hi & Heq)].
    - destruct active as [| a active']; [done |].
      pose proof (Hrolled a ltac:(by left)).
      pose proof (Hmax a ltac:(by left)). fold ps in H. lia.
    - intros Hnil. assert (i ∈ tied) as Hin.
      { apply list_elem_of_filter. done. }
      rewrite Hnil in Hin. by apply not_elem_of_nil in Hin. }
  set (k := Z.to_nat (floor_times (rng 0%nat) (Z.of_nat (length tied)))).
  assert (k < length tied)%nat as Hk.
  { destruct tied; [done |].
    pose proof (floor_times_bounds (rng 0%nat) (Z.of_nat (length (n :: tied)))
                  ltac:(cbn; lia)).
    unfold k. lia. }
  destruct (lookup_lt_is_Some_2 _ _ Hk) as [winner Hwin].
  rewrite Hwin. cbn [mbind option_bind].
  by destruct (foldl loseStep _ _).
Qed.

(** What a completed [resolveRound] has done. *)
Lemma resolveRound_Some (active : list nat) w rng r :
  NoDup active →
  (∀ i, i ∈ active → (i < length (players (state w)))%nat) →
  resolveRound active w rng = Some r →
  let ps := players (state w) in
  let ps' := players (state (res_world r)) in
  let tied := filter (λ i, roundScore (ps !!! i) = maxScoreOf ps active)
                     active in
  ∃ lost,
    res_winner r ∈ active ∧
    (∀ i, i ∈ active →
          roundScore (ps !!! i) ≤ roundScore (ps !!! res_winner r)) ∧
    tied !! Z.to_nat (floor_times (rng 0%nat) (Z.of_nat (length tied)))
      = Some (res_winner r) ∧
    ps' !! res_winner r = ps !! res_winner r ∧
    res_losers r = filter (λ i, i ≠ res_winner r) active ∧
    Forall2 (λ i l, ∃ p p', ps !! i = Some p ∧ ps' !! i = Some p' ∧
                            loserAfter p p' l) (res_losers r) lost ∧
    pool (state (res_world r)) = pool (state w) ++ omap id lost ∧
    length ps' = length ps ∧
    (∀ j, j ∉ res_losers r → ps' !! j = ps !! j) ∧
    dom (res_world r) = dom (showSection results_section w) ∧
    pending (res_world r) = Some (ChoiceTimer (res_winner r)) ∧
    difficulty (state (res_world r)) = difficulty (state w).
Proof.
  intros Hnd Hlt Hres ps ps' tied.
  destruct (maxScoreOf_spec ps active) as [Hmax _].
  unfold resolveRound in Hres. cbn [next] in Hres. fold ps tied in Hres.
  destruct (tied !! _) as [winner |] eqn:Hwin; [| done].
  cbn [mbind option_bind] in Hres.
  assert (winner ∈ tied) as Hwt by (by eapply list_elem_of_lookup_2).
  apply list_elem_of_filter in Hwt as [Hscore Hwa].
  destruct (loseLoop_spec (filter (λ i, i ≠ winner) active)
              (showSection results_section (set_phase resolving w))
              (λ i, rng (S i)))
    as (w' & rng' & lost & Hfold & Hlen & Hother & Hall & Hpool & Hdom & _
        & Hdiff).
  { by apply NoDup_filter. }
  { intros i [_ Hi]%list_elem_of_filter. by apply Hlt. }
  rewrite Hfold in Hres. injection Hres as <-. unfold ps'. cbn.
  exists lost.
  split_and!; [done | | done | | done | done | done | done | done | done
              | done | done].
  - intros i Hi. rewrite Hscore. by apply Hmax.
  - apply Hother. intros [Hn _]%list_elem_of_filter. done.
Qed.

(** Each player of the tie can be the one the tie-break selects. *)
Lemma resolveRound_any_tied_wins (active : list nat) w i :
  let ps := players (state w) in
  Z.of_nat (length active) < 2 ^ 52 →
  i ∈ active → roundScore (ps !!! i) = maxScoreOf ps active →
  ∃ rng r, resolveRound active w rng = Some r ∧ res_winner r = i.
Proof.
  intros ps Hlen Hi Hscore.
  set (tied := filter (λ i, roundScore (ps !!! i) = maxScoreOf ps active)
                      active).
  assert (i ∈ tied) as Hin by (by apply list_elem_of_filter).
  apply list_elem_of_lookup in Hin as [k Hk].
  pose proof (lookup_lt_Some _ _ _ Hk) as Hklt.
  pose proof (length_filter (λ i, roundScore (ps !!! i) = maxScoreOf ps active)
                active) as Hfl. fold tied in Hfl.
  destruct (floor_times_onto (Z.of_nat (length tied)) (Z.of_nat k))
    as [u Hu]; [lia | lia |].
  exists (constRng u). unfold resolveRound. cbn [next]. fold ps tied.
  change (constRng u 0%nat) with u. rewrite Hu, Nat2Z.id, Hk.
  cbn [mbind option_bind].
  destruct (foldl loseStep _ _). by eexists.
Qed.

(** C4: with at least one player still in the game and every such
    player's roll made, [resolveRound] completes. Its winner is an
    active player whose [roundScore] is the maximum over the active
    players: the entry of [tied], the active players with that maximum,
    at the position the tie-break draw gives. The winner's record is
    untouched. Every other active player is a loser, and for each the
    value [l] of its [loseRandomDie()] tells what happened: for [Some d]
    exactly the entry [d] at one position left its [dice], for [None]
    its [dice] is as before; the dice lost, in the order of the losers,
    are what was appended to [pool]. *)
Theorem resolveRound_outcome w rng :
  let ps := players (state w) in
  let active := activePlayers ps in
  active ≠ [] →
  (∀ i, i ∈ active → 0 ≤ roundScore (ps !!! i)) →
  ∃ r lost,
    resolveRound active w rng = Some r ∧
    let ps' := players (state (res_world r)) in
    let tied := filter (λ i, roundScore (ps !!! i) = maxScoreOf ps active)
                       active in
    res_winner r ∈ active ∧
    (∀ i, i ∈ active →
          roundScore (ps !!! i) ≤ roundScore (ps !!! res_winner r)) ∧
    tied !! Z.to_nat (floor_times (rng 0%nat) (Z.of_nat (length tied)))
      = Some (res_winner r) ∧
    ps' !! res_winner r = ps !! res_winner r ∧
    res_losers r = filter (λ i, i ≠ res_winner r) active ∧
    Forall2 (λ i l, ∃ p p', ps !! i = Some p ∧ ps' !! i = Some p' ∧
                            loserAfter p p' l) (res_losers r) lost ∧
    pool (state (res_world r)) = pool (state w) ++ omap id lost.
Proof.
  intros ps active Hne Hrolled.
  destruct (resolveRound_is_Some active w rng Hne Hrolled) as [r Hr].
  destruct (resolveRound_Some active w rng r) as (lost & H); try done.
  { apply activePlayers_NoDup. }
  { intros i Hi. by apply activePlayers_lt. }
  exists r, lost. split; [done |]. cbv zeta in H. cbv zeta.
  fold ps active in H. by destruct H as (? & ? & ? & ? & ? & ? & ? & _).
Qed.

Lemma resolveRound_outcome_witness :
  activePlayers (players (state world_rolled)) ≠ [] ∧
  ∃ r, resolveRound (activePlayers (players (state world_rolled)))
                    world_rolled (constRng u_top) = Some r ∧
       res_winner r ∈ activePlayers (players (state world_rolled)).
Proof.
  assert (activePlayers (players (state world_rolled)) ≠ []) as H1 by done.
  split; [exact H1 |].
  destruct (resolveRound_outcome world_rolled (constRng u_top) H1)
    as (r & lost & Hr & Hw & _).
  { intros i Hi. vm_compute in Hi.
    repeat (apply elem_of_cons in Hi as [-> | Hi]; [by vm_compute |]).
    by apply not_elem_of_nil in Hi. }
  exists r. split; [exact Hr | exact Hw].
Defined.

(** ** What holds between any two events *)

Lemma core_insert (ps : list Player) i p' :
  core p' = core (ps !!! i) → core <$> <[i := p']> ps = core <$> ps.
Proof.
  intros H. rewrite list_fmap_insert. apply list_insert_id'.
  rewrite length_fmap. intros Hlt. rewrite list_lookup_fmap.
  rewrite (list_lookup_lookup_total_lt ps i Hlt). cbn. by rewrite H.
Qed.

Lemma core_alter (f : Player → Player) i (ps : list Player) :
  (∀ p, core (f p) = core p) → core <$> alter f i ps = core <$> ps.
Proof.
  intros H. rewrite (list_fmap_alter core f id).
  - by apply list_alter_id.
  - apply Forall_forall. intros p _. apply H.
Qed.

Lemma core_lookup (ps ps' : list Player) i p' :
  core <$> ps' = core <$> ps → ps' !! i = Some p' →
  ∃ p, ps !! i = Some p ∧ core p' = core p.
Proof.
  intros Hc Hi.
  assert ((core <$> ps) !! i = Some (core p')) as H.
  { by rewrite <- Hc, list_lookup_fmap, Hi. }
  apply list_lookup_fmap_Some in H as (p & ? & ?). eauto.
Qed.

Lemma playerOk_core p p' : core p' = core p → playerOk p → playerOk p'.
Proof.
  unfold core, playerOk. intros [= _ Hd Hm He]. by rewrite Hd, Hm, He.
Qed.

Lemma Inv_players ps ps' :
  core <$> ps' = core <$> ps →
  (Forall playerOk ps → Forall playerOk ps') ∧
  (onlyFirstHuman ps → onlyFirstHuman ps') ∧
  (headAlive ps → headAlive ps').
Proof.
  intros Hc. split_and!.
  - rewrite !Forall_lookup. intros Hok i p' Hi.
    destruct (core_lookup _ _ _ _ Hc Hi) as (p & Hp & Hcp).
    eapply playerOk_core; eauto.
  - intros Hh i p' Hi Hhum.
    destruct (core_lookup _ _ _ _ Hc Hi) as (p & Hp & [= Hcp _ _ _]).
    apply (Hh i p Hp). congruence.
  - intros (h & rest & -> & Hel).
    destruct ps' as [| h' rest']; [done |].
    cbn in Hc. inversion Hc. exists h', rest'. split; [done | congruence].
Qed.

Lemma activePlayers_core ps ps' :
  core <$> ps' = core <$> ps → activePlayers ps' = activePlayers ps.
Proof.
  intros Hc. unfold activePlayers.
  assert (length ps' = length ps) as ->.
  { by rewrite <- (length_fmap core ps'), Hc, length_fmap. }
  induction (seq 0 (length ps)) as [| i l IH]; [done |].
  rewrite !filter_cons, IH.
  assert (eliminated (ps' !!! i) = eliminated (ps !!! i)) as ->; [| done].
  destruct (ps' !! i) as [p' |] eqn:Hi.
  - destruct (core_lookup _ _ _ _ Hc Hi) as (p & Hp & [= _ _ _ He]).
    by rewrite (list_lookup_total_correct _ _ _ Hi),
               (list_lookup_total_correct _ _ _ Hp).
  - assert (ps !! i = None) as Hn.
    { apply lookup_ge_None. apply lookup_ge_None in Hi.
      by rewrite <- (length_fmap core ps), <- Hc, length_fmap. }
    by rewrite !list_lookup_total_alt, Hi, Hn.
Qed.

Lemma applyChoice_playerOk c p :
  dice p ≠ [] → eliminated p = false →
  playerOk (applyChoice c p).2 ∧
  isHuman (applyChoice c p).2 = isHuman p ∧
  eliminated (applyChoice c p).2 = false.
Proof.
  intros Hd He. unfold applyChoice, playerOk.
  cbn [snd dice set_dice set_madeFirstChoice eliminated madeFirstChoice
       isHuman chosenDie].
  split_and!; [| done | done | done].
  rewrite He. split; [| done]. intros Hnil%sort_desc_nil_inv.
  case_decide.
  - by destruct (dice p).
  - cbv zeta in Hnil. case_decide; [| done].
    apply (f_equal length) in Hnil. rewrite length_insert in Hnil.
    by destruct (dice p).
Qed.

Lemma loserAfter_playerOk p p' l :
  loserAfter p p' l → playerOk p → playerOk p'.
Proof.
  intros (Hlost & Hel & _ & _ & Hm & _) [Hiff Hprot]. split.
  - rewrite Hel. case_decide as Hnil; [done |].
    split; [done |]. intros He. apply Hiff in He.
    destruct l as [d |]; cbn in Hlost.
    + destruct Hlost as (k & _ & Hdel & _). by rewrite Hdel, He in Hnil.
    + by rewrite Hlost in Hnil.
  - rewrite Hm. intros Hp. specialize (Hprot Hp).
    destruct l as [d |]; cbn in Hlost; [| by rewrite Hlost].
    destruct Hlost as (k & Hk & _ & Hne). specialize (Hne Hp).
    rewrite Hprot in Hk, Hne.
    destruct k as [| k]; [by vm_compute in Hne | done].
Qed.

(** The winner's choice applied to a player still in the game. *)
Lemma applied_choice_ok c (ps : list Player) i p :
  ps !! i = Some p → eliminated p = false →
  Forall playerOk ps → onlyFirstHuman ps →
  Forall playerOk (alter (λ p, (applyChoice c p).2) i ps) ∧
  onlyFirstHuman (alter (λ p, (applyChoice c p).2) i ps).
Proof.
  intros Hi Hel Hok Hh.
  assert (dice p ≠ []) as Hd.
  { intros Hnil. apply (Forall_lookup_1 _ _ _ _ Hok) in Hi as [Hiff _].
    apply Hiff in Hnil. congruence. }
  destruct (applyChoice_playerOk c p Hd Hel) as (Hok' & Hhum & _).
  split.
  - apply Forall_lookup. intros j q Hj.
    destruct (decide (i = j)) as [<- | Hne].
    + rewrite list_lookup_alter_eq, Hi in Hj. by injection Hj as <-.
    + rewrite list_lookup_alter_ne in Hj by done.
      by eapply Forall_lookup_1.
  - intros j q Hj Hq. destruct (decide (i = j)) as [<- | Hne].
    + rewrite list_lookup_alter_eq, Hi in Hj. injection Hj as <-.
      apply (Hh i p Hi). by rewrite <- Hhum.
    + rewrite list_lookup_alter_ne in Hj by done. by apply (Hh j q).
Qed.

(** The players after the loop over the losers. *)
Lemma losers_ok (ps ps' : list Player) (losers : list nat) lost :
  Forall2 (λ i l, ∃ p p', ps !! i = Some p ∧ ps' !! i = Some p' ∧
                          loserAfter p p' l) losers lost →
  (∀ j, j ∉ losers → ps' !! j = ps !! j) →
  Forall playerOk ps → onlyFirstHuman ps →
  Forall playerOk ps' ∧ onlyFirstHuman ps'.
Proof.
  intros Hall Hother Hok Hh.
  assert (∀ j q', ps' !! j = Some q' →
            ∃ q, ps !! j = Some q ∧ (playerOk q → playerOk q') ∧
                 isHuman q' = isHuman q) as Hrel.
  { intros j q' Hj. destruct (decide (j ∈ losers)) as [Hin | Hnin].
    - apply list_elem_of_lookup in Hin as [n Hn].
      destruct (Forall2_lookup_l _ _ _ _ _ Hall Hn)
        as (l & _ & q & q'' & Hq & Hq'' & Hafter).
      rewrite Hj in Hq''. injection Hq'' as <-.
      exists q. split_and!; [done | by eapply loserAfter_playerOk |].
      by destruct Hafter as (_ & _ & _ & ? & _).
    - rewrite (Hother j Hnin) in Hj. by exists q'. }
  split.
  - apply Forall_lookup. intros j q' Hj.
    destruct (Hrel j q' Hj) as (q & Hq & Himp & _).
    apply Himp. by eapply Forall_lookup_1.
  - intros j q' Hj Hhum. destruct (Hrel j q' Hj) as (q & Hq & _ & Heq).
    apply (Hh j q Hq). congruence.
Qed.

Lemma rollAll_core (active : list nat) w rng :
  let '(w', _) := rollAll active w rng in
  core <$> players (state w') = core <$> players (state w) ∧
  dom w' = dom w ∧ pending w' = pending w ∧ pool (state w') = pool (state w) ∧
  difficulty (state w') = difficulty (state w).
Proof.
  unfold rollAll. revert w rng.
  induction active as [| i active IH]; intros w rng; [done |].
  cbn [foldl].
  destruct (rollForRound (players (state w) !!! i) rng) as [p rng1] eqn:Hroll.
  specialize (IH (set_players (<[i := p]> (players (state w))) w) rng1).
  destruct (foldl _ _ active) as [w' rng'].
  destruct IH as (-> & -> & -> & -> & ->). cbn. split_and!; try done.
  apply core_insert.
  pose proof (rollForRound_rolls (players (state w) !!! i) rng) as H.
  rewrite Hroll in H. cbn in H. destruct H as (_ & _ & _ & _ & ->). done.
Qed.

(** After the rolls every active player has a score that is not
    negative. *)
Lemma rollAll_scores (active : list nat) w rng :
  let '(w', _) := rollAll active w rng in
  ∀ i, (i < length (players (state w)))%nat →
       i ∈ active ∨ 0 ≤ roundScore (players (state w) !!! i) →
       0 ≤ roundScore (players (state w') !!! i).
Proof.
  unfold rollAll. revert w rng.
  induction active as [| a active IH]; intros w rng.
  { cbn. intros i _ [?%not_elem_of_nil | ?]; done. }
  cbn [foldl].
  destruct (rollForRound (players (state w) !!! a) rng) as [p rng1] eqn:Hroll.
  specialize (IH (set_players (<[a := p]> (players (state w))) w) rng1).
  destruct (foldl _ _ active) as [w' rng'].
  cbn [players state set_players] in IH.
  intros i Hlt Hi. apply IH; [by rewrite length_insert |].
  assert (0 ≤ roundScore p) as Hp.
  { pose proof (rollForRound_score_nonneg (players (state w) !!! a) rng) as H.
    by rewrite Hroll in H. }
  destruct (decide (a = i)) as [-> | Hne].
  - right. by rewrite list_lookup_total_insert_eq.
  - rewrite list_lookup_total_insert_ne by done.
    destruct Hi as [[-> | Hi]%elem_of_cons | Hi]; [done | by left | by right].
Qed.

Lemma startRound_is_Some w :
  players (state w) ≠ [] → is_Some (startRound w).
Proof.
  intros Hne. unfold startRound.
  cbn [players state set_players set_round_no set_phase hideAll foldl
       hideSection set_hidden dom].
  destruct (players (state w)) as [| h rest]; [done |].
  cbn [fmap list_fmap lookup list_lookup mbind option_bind].
  destruct (eliminated _); [done |]. by case_decide.
Qed.

(** *** The page and the timer *)

Lemma shown_set_hidden id b w j :
  shown (set_hidden id b w) j =
  if decide (j = id) then (if b then 0%nat else 1%nat) else shown w j.
Proof. unfold shown. cbn. by case_decide. Qed.

Lemma hideAll_shown w j : shown (hideAll w) j = 0%nat.
Proof.
  unfold hideAll, hideSection. cbn [foldl]. rewrite !shown_set_hidden.
  destruct j; repeat case_decide; done.
Qed.

(** Settle a goal about the visible sections of a world built from [w]
    by case analysis on the four [hidden] flags of [w]. *)
Ltac ui w :=
  unfold busy, buttons, shown in *; cbn in *;
  destruct (hidden (dom w) die_selector) eqn:?,
           (hidden (dom w) roll_section) eqn:?,
           (hidden (dom w) choice_section) eqn:?,
           (hidden (dom w) continue_section) eqn:?;
  repeat case_decide; try done; try lia.

Lemma startRound_spec w w' :
  startRound w = Some w' →
  core <$> players (state w') = core <$> players (state w) ∧
  screen (dom w') = screen (dom w) ∧ pending w' = pending w ∧
  buttons w' = 1%nat.
Proof.
  unfold startRound.
  set (f := λ p, if bool_decide (isHuman p = false ∧ eliminated p = false)
                 then set_chosenDie (bestDie p) p else p).
  set (w1 := hideAll (set_phase select_die (set_round_no _ w))).
  assert (core <$> (f <$> players (state w)) = core <$> players (state w))
    as Hf.
  { rewrite <- list_fmap_compose. apply list_fmap_ext. intros i p _.
    unfold f, compose. by case_bool_decide. }
  change (players (state w1)) with (players (state w)).
  change (players (state (set_players (f <$> players (state w)) w1)))
    with (f <$> players (state w)).
  destruct ((f <$> players (state w)) !! 0%nat) as [human |]; [| done].
  cbn [mbind option_bind]. intros H.
  assert (∀ j, shown w1 j = 0%nat) as Hw1 by (intros j; apply hideAll_shown).
  assert (∀ w2, (∀ j, shown w2 j = shown w1 j) →
                buttons (showRollSection w2) = 1%nat) as Hroll.
  { intros w2 Hw2. unfold buttons, showRollSection, showSection.
    rewrite !shown_set_hidden, !Hw2, !Hw1.
    by repeat case_decide. }
  destruct (eliminated human).
  { injection H as <-. split_and!; [done | done | done |]. by apply Hroll. }
  case_decide; injection H as <-.
  - split_and!; [done | done | done |].
    unfold buttons, showDieSelector, showSection.
    rewrite !shown_set_hidden.
    change (shown (set_dieOptions _ (set_players _ w1))) with (shown w1).
    rewrite !Hw1. by repeat case_decide.
  - split_and!; [| done | done | by apply Hroll].
    cbn. by rewrite core_alter.
Qed.

Lemma checkWinCondition_cases w w' :
  checkWinCondition w = Some w' →
  (∃ x, w' = endGame x w) ∨
  (w' = set_phase continue (showSection continue_section w) ∧
   headAlive (players (state w))).
Proof.
  unfold checkWinCondition. intros H.
  destruct (list_find _ _) as [[i p] |]; [injection H as <-; eauto |].
  case_decide; [injection H as <-; eauto |].
  destruct (players (state w)) as [| h rest] eqn:Hps; [done |].
  cbn in H. destruct (eliminated h) eqn:Hel; injection H as <-; [eauto |].
  right. split; [done |]. by exists h, rest.
Qed.

(** *** Each handler keeps the invariant *)

Lemma Inv_load w : pageLoaded w → Inv w.
Proof.
  intros (Hst & Hsc & Hp). unfold Inv. rewrite Hst, Hsc, Hp. cbn.
  split_and!; [apply Forall_nil_2 | by intros i p ? | done | done].
Qed.

Lemma Inv_startRound w w' :
  Forall playerOk (players (state w)) → onlyFirstHuman (players (state w)) →
  headAlive (players (state w)) → pending w = None →
  startRound w = Some w' → Inv w'.
Proof.
  intros Hok Hh Ha Hp (Hc & Hs & Hp' & Hb)%startRound_spec.
  destruct (Inv_players _ _ Hc) as (H1 & H2 & H3).
  rewrite Hp in Hp'. unfold Inv, busy. rewrite Hp', Hb.
  split_and!; [by apply H1 | by apply H2 | done |].
  intros _. split; [done | by apply H3].
Qed.

Lemma Inv_initGame d n names w w' :
  pending w = None → initGame d n names w = Some w' → Inv w'.
Proof.
  unfold initGame. intros Hp. apply Inv_startRound; cbn.
  - constructor; [done |]. apply Forall_fmap, Forall_forall. by intros i _.
  - intros [| i] p Hi Hhum; [done |]. cbn in Hi.
    apply list_lookup_fmap_Some in Hi as (k & -> & _). done.
  - by eexists _, _.
  - done.
Qed.

Lemma Inv_checkWinCondition w w' :
  Forall playerOk (players (state w)) → onlyFirstHuman (players (state w)) →
  pending w = None → buttons w = 0%nat →
  checkWinCondition w = Some w' → Inv w'.
Proof.
  intros Hok Hh Hp Hb [[x ->] | [-> Ha]]%checkWinCondition_cases.
  - unfold Inv. cbn. split_and!; [done | done | done | done].
  - unfold Inv. cbn [players state set_phase showSection set_hidden
      pending dom screen].
    split_and!; [done | done | done |]. intros _. rewrite Hp.
    split; [| done]. unfold busy.
    change (pending (set_phase continue (showSection continue_section w)))
      with (pending w).
    rewrite Hp. clear -Hb. ui w.
Qed.

Lemma Inv_applyHumanChoice c w w' :
  Inv w → visible choice_section w →
  applyHumanChoice c w = Some w' → Inv w'.
Proof.
  intros (Hok & Hh & _ & Hg) [Hs Hv] Hc.
  destruct (Hg Hs) as [Hb Ha].
  assert (pending w = None) as Hp.
  { unfold busy in Hb. destruct (pending w); [exfalso | done].
    clear -Hb Hv. ui w. }
  unfold busy in Hb. rewrite Hp in Ha, Hb.
  destruct Ha as (h & rest & Hps & Hel).
  unfold applyHumanChoice in Hc. rewrite Hps in Hc.
  cbn [lookup list_lookup mbind option_bind] in Hc.
  destruct (applied_choice_ok c (players (state w)) 0 h) as [Hok' Hh'];
    [by rewrite Hps | done | done | done |].
  eapply Inv_checkWinCondition; [| | | | exact Hc];
    [exact Hok' | exact Hh' | done |].
  clear -Hb Hv. ui w.
Qed.

Lemma Inv_dieOptClick sides w :
  Inv w → visible die_selector w → Inv (dieOptClick sides w).
Proof.
  intros (Hok & Hh & _ & Hg) [Hs Hv].
  destruct (Hg Hs) as [Hb Ha].
  assert (pending w = None) as Hp.
  { unfold busy in Hb. destruct (pending w); [exfalso | done].
    clear -Hb Hv. ui w. }
  unfold busy in Hb. rewrite Hp in Ha, Hb.
  assert (core <$> players (state (dieOptClick sides w))
          = core <$> players (state w)) as Hc.
  { cbn. by apply core_alter. }
  destruct (Inv_players _ _ Hc) as (H1 & H2 & H3).
  unfold Inv, busy. split_and!; [by apply H1 | by apply H2 | done |].
  intros _.
  change (pending (dieOptClick sides w)) with (pending w). rewrite Hp.
  split; [| by apply H3]. clear -Hb Hv. ui w.
Qed.

Lemma buttons_dom w w' : dom w' = dom w → buttons w' = buttons w.
Proof. intros H. unfold buttons, shown. by rewrite H. Qed.

(** A timer is pending on the game screen only. *)
Lemma Inv_pending w t :
  Inv w → pending w = Some t →
  screen (dom w) = game_screen ∧ buttons w = 0%nat.
Proof.
  intros (_ & _ & Hn & Hg) Hp.
  assert (screen (dom w) = game_screen) as Hs.
  { destruct (screen (dom w)); [| done |];
      (by rewrite Hn in Hp). }
  split; [done |]. destruct (Hg Hs) as [Hb _].
  unfold busy in Hb. rewrite Hp in Hb. lia.
Qed.

(** With a button section visible no timer is pending and the human
    player is in the game. *)
Lemma Inv_visible w id :
  Inv w → visible id w → id ≠ results_section →
  pending w = None ∧ buttons w = 1%nat ∧ headAlive (players (state w)).
Proof.
  intros (_ & _ & _ & Hg) [Hs Hv] Hid. destruct (Hg Hs) as [Hb Ha].
  assert (1 ≤ buttons w)%nat as H1.
  { clear -Hv Hid. unfold buttons, shown.
    destruct id; [| | done | |]; rewrite Hv; lia. }
  unfold busy in Hb. destruct (pending w); [lia |].
  split_and!; [done | lia | done].
Qed.

Lemma Inv_executeRound w rng :
  Inv w → visible roll_section w → Inv (executeRound w rng).
Proof.
  intros HI Hv.
  destruct (Inv_visible w roll_section HI Hv) as (Hp & Hb & Ha);
    [done |].
  destruct HI as (Hok & Hh & _). destruct Hv as [Hs Hv].
  unfold executeRound.
  set (w1 := set_phase rolling (hideSection roll_section w)).
  change (players (state w1)) with (players (state w)).
  set (active := activePlayers (players (state w))).
  pose proof (rollAll_core active w1 rng) as Hcore.
  pose proof (rollAll_scores active w1 rng) as Hscores.
  destruct (rollAll active w1 rng) as [w2 rng2].
  destruct Hcore as (Hc & Hdom & _).
  change (players (state w1)) with (players (state w)) in Hc, Hscores.
  destruct (Inv_players _ _ Hc) as (H1 & H2 & H3).
  unfold Inv, busy.
  cbn [players state dom pending set_pending].
  rewrite (buttons_dom w1 (set_pending _ w2)) by done.
  rewrite Hdom.
  split_and!; [by apply H1 | by apply H2 | done |].
  intros _. split.
  - clear -Hb Hv. ui w.
  - split_and!; [by apply H3 | symmetry; by apply activePlayers_core |].
    intros i Hi. apply Hscores; [by apply activePlayers_lt | by left].
Qed.

Lemma Inv_resolveTimer w rng active r :
  Inv w → pending w = Some (ResolveTimer active) →
  resolveRound active (set_pending None w) rng = Some r →
  Inv (res_world r).
Proof.
  intros HI Hp Hr. destruct (Inv_pending _ _ HI Hp) as [Hs Hb].
  destruct HI as (Hok & Hh & _ & Hg). destruct (Hg Hs) as [_ Ht].
  rewrite Hp in Ht. destruct Ht as (Ha & Hact & _).
  destruct (resolveRound_Some active (set_pending None w) rng r) as
    (lost & Hwin & _ & _ & Hsame & _ & Hall & _ & _ & Hother & Hdom & Hpend
     & _);
    [rewrite Hact; apply activePlayers_NoDup
    | rewrite Hact; apply activePlayers_lt | done |].
  change (players (state (set_pending None w))) with (players (state w))
    in Hall, Hother, Hsame.
  destruct (losers_ok _ _ _ _ Hall Hother Hok Hh) as [Hok' Hh'].
  rewrite Hact in Hwin. apply activePlayers_elem in Hwin as (pw & Hpw & Hel).
  unfold Inv, busy. rewrite Hpend, (buttons_dom _ _ Hdom), Hdom.
  split_and!; [done | done | done |].
  intros _. split.
  - clear -Hb. ui w.
  - exists pw. by rewrite Hsame.
Qed.

Lemma Inv_choiceTimer w winner w' :
  Inv w → pending w = Some (ChoiceTimer winner) →
  winnerChoice winner (set_pending None w) = Some w' →
  Inv w'.
Proof.
  intros HI Hp Hc. destruct (Inv_pending _ _ HI Hp) as [Hs Hb].
  destruct HI as (Hok & Hh & _ & Hg). destruct (Hg Hs) as [_ Ht].
  rewrite Hp in Ht. destruct Ht as (pw & Hpw & Hel).
  unfold winnerChoice in Hc.
  change (players (state (set_pending None w))) with (players (state w)) in Hc.
  rewrite (list_lookup_total_correct _ _ _ Hpw) in Hc.
  destruct (isHuman pw) eqn:Hhum.
  - injection Hc as <-. unfold Inv, busy.
    cbn [players state showHumanChoice set_phase showSection set_hidden
         set_upgradeDisabled set_pending pending].
    split_and!; [done | done | done |]. intros _. split.
    + clear -Hb. ui w.
    + pose proof (Hh _ _ Hpw Hhum) as H0. rewrite H0 in Hpw.
      destruct (players (state w)) as [| h rest]; [done |].
      injection Hpw as ->. by exists pw, rest.
  - destruct (applied_choice_ok (getAIChoice pw) _ _ _ Hpw Hel Hok Hh)
      as [Hok' Hh'].
    eapply Inv_checkWinCondition; [| | | | exact Hc];
      [exact Hok' | exact Hh' | done |].
    clear -Hb. ui w.
Qed.

(** Every event keeps the invariant. *)
Lemma Inv_event w e w' : Inv w → enabled e w → handle e w = Some w' → Inv w'.
Proof.
  intros HI Hen Hh. destruct e; cbn [handle enabled] in Hen, Hh.
  - destruct Hen as [Hs _]. eapply Inv_initGame; [| exact Hh].
    destruct HI as (_ & _ & Hn & _). apply Hn. by rewrite Hs.
  - injection Hh as <-. destruct HI as (Hok & Hhum & Hn & _).
    unfold Inv. cbn. split_and!; [done | done | | done].
    intros _. apply Hn. by rewrite Hen.
  - destruct Hen as [Hv _].
    destruct (dieOptions (dom w) !! k) as [sides |]; [| done].
    injection Hh as <-. by apply Inv_dieOptClick.
  - injection Hh as <-. by apply Inv_executeRound.
  - by eapply Inv_applyHumanChoice.
  - destruct Hen as [Hv _]. by eapply Inv_applyHumanChoice.
  - destruct (Inv_visible w continue_section HI Hen) as (Hp & _ & Ha);
      [done |].
    destruct HI as (Hok & Hhum & _).
    eapply Inv_startRound; [| | | | exact Hh]; done.
  - destruct (pending w) as [[active | winner] |] eqn:Hp; [| | done].
    + destruct (resolveRound _ _ _) as [r |] eqn:Hr; [| done].
      injection Hh as <-. by eapply Inv_resolveTimer.
    + by eapply Inv_choiceTimer.
Qed.

Lemma Reachable_Inv w : Reachable w → Inv w.
Proof.
  induction 1 as [w Hl | w e w' _ IH Hen Hh].
  - by apply Inv_load.
  - by eapply Inv_event.
Qed.

(** ** No handler throws *)

(** From a reachable world every event that can occur runs its handler
    to the end: the worlds between events are all there is to
    observe. *)
Lemma handlers_complete w e :
  Reachable w → enabled e w → is_Some (handle e w).
Proof.
  intros HI%Reachable_Inv Hen.
  destruct e; cbn [handle enabled] in *.
  - unfold initGame. by apply startRound_is_Some.
  - done.
  - destruct Hen as [_ [sides ->]]. done.
  - done.
  - destruct (Inv_visible w choice_section HI Hen)
      as (_ & _ & h & rest & Hps & _); [done |].
    unfold applyHumanChoice. rewrite Hps.
    cbn [lookup list_lookup mbind option_bind].
    apply checkWinCondition_is_Some. cbn. by rewrite Hps.
  - destruct Hen as [Hen _].
    destruct (Inv_visible w choice_section HI Hen)
      as (_ & _ & h & rest & Hps & _); [done |].
    unfold applyHumanChoice. rewrite Hps.
    cbn [lookup list_lookup mbind option_bind].
    apply checkWinCondition_is_Some. cbn. by rewrite Hps.
  - destruct (Inv_visible w continue_section HI Hen)
      as (_ & _ & h & rest & Hps & _); [done |].
    unfold continueClick. apply startRound_is_Some. cbn. by rewrite Hps.
  - destruct Hen as [t Hp]. rewrite Hp.
    destruct (Inv_pending _ _ HI Hp) as [Hs _].
    destruct HI as (_ & _ & _ & Hg). destruct (Hg Hs) as [_ Ht].
    rewrite Hp in Ht. destruct t as [active | winner].
    + destruct Ht as ((h & rest & Hps & Hel) & Hact & Hscores).
      apply fmap_is_Some, resolveRound_is_Some; [| done].
      intros Hnil. assert (0%nat ∈ active) as H0.
      { rewrite Hact. apply activePlayers_elem. exists h. by rewrite Hps. }
      rewrite Hnil in H0. by apply not_elem_of_nil in H0.
    + destruct Ht as (pw & Hpw & _). unfold winnerChoice.
      destruct (isHuman _); [done |].
      apply checkWinCondition_is_Some. cbn.
      intros Hnil%(f_equal length). rewrite length_alter in Hnil.
      apply lookup_lt_Some in Hpw. cbn in Hnil. lia.
Qed.

(** ** Reachable worlds *)

(** Every list of events that can occur one after the other from the
    loaded page leads to a reachable world. *)
Lemma play_reachable es w :
  Reachable w →
  (∀ k e, es !! k = Some e →
          enabled e (play (take k es) w) ∧
          is_Some (handle e (play (take k es) w))) →
  Reachable (play es w).
Proof.
  revert w. induction es as [| e es IH] using rev_ind; intros w Hw Hall;
    [done |].
  unfold play. rewrite foldl_app. cbn [foldl]. fold (play es w).
  destruct (Hall (length es) e) as [Hen [w' Hw']].
  { by rewrite lookup_app_r, Nat.sub_diag. }
  rewrite take_app_length in Hen, Hw'.
  rewrite Hw'. cbn. eapply reach_event; [| exact Hen | exact Hw'].
  apply IH; [done |]. intros k e' Hk.
  pose proof (lookup_lt_Some _ _ _ Hk) as Hlt.
  specialize (Hall k e'). rewrite lookup_app_l, take_app_le in Hall by lia.
  by apply Hall.
Qed.

Lemma world_round2_reachable : Reachable world_round2.
Proof.
  apply play_reachable; [by apply reach_load |].
  intros k e Hk.
  do 7 (destruct k as [| k];
        [injection Hk as <-; split;
         first [by split; vm_compute | by eexists; vm_compute] |]).
  done.
Qed.

(** C8: in every world the game can be in between two events (clicks
    and timers), so in particular at every point between the resolution
    of one round and the start of the next, a player has no dice exactly
    when it is eliminated. *)
Theorem reachable_eliminated_iff_no_dice w :
  Reachable w →
  Forall (λ p, length (dice p) = 0%nat ↔ eliminated p = true)
         (players (state w)).
Proof.
  intros (Hok & _)%Reachable_Inv.
  eapply Forall_impl; [exact Hok |].
  intros p [Hiff _]. by rewrite length_zero_iff_nil.
Qed.

Lemma reachable_eliminated_iff_no_dice_witness :
  Reachable world_round2 ∧
  Forall (λ p, length (dice p) = 0%nat ↔ eliminated p = true)
         (players (state world_round2)).
Proof.
  split; [exact world_round2_reachable |].
  exact (reachable_eliminated_iff_no_dice world_round2 world_round2_reachable).
Defined.

(** C9: in every reachable world a player that has not yet made a
    choice holds exactly one D4. *)
Theorem reachable_protected_single_D4 w :
  Reachable w →
  Forall (λ p, madeFirstChoice p = false → dice p = [4]) (players (state w)).
Proof.
  intros (Hok & _)%Reachable_Inv.
  eapply Forall_impl; [exact Hok |]. by intros p [_ Hprot].
Qed.

Lemma reachable_protected_single_D4_witness :
  Reachable world_round2 ∧
  Forall (λ p, madeFirstChoice p = false → dice p = [4])
         (players (state world_round2)).
Proof.
  split; [exact world_round2_reachable |].
  exact (reachable_protected_single_D4 world_round2 world_round2_reachable).
Defined.

(** * Further properties *)

(** ** [rollForRound], [bestDie], [getAIChoice] *)

Lemma sumZ_upper b l : Forall (λ r, r ≤ b) l → sumZ l ≤ Z.of_nat (length l) * b.
Proof. induction 1; cbn [sumZ foldr length]; unfold sumZ in *; lia. Qed.

Lemma sumZ_lower b l : Forall (λ r, b ≤ r) l → Z.of_nat (length l) * b ≤ sumZ l.
Proof. induction 1; cbn [sumZ foldr length]; unfold sumZ in *; lia. Qed.

(** X1: [rollForRound] consumes one draw per side of the chosen die and
    writes only the two scratch fields: as many rolls as the die has
    sides, each between 0 and that number, and their sum, which lies
    between 0 and the square of the number of sides. What the scratch
    fields held before plays no part. *)
Theorem rollForRound_effect p rng :
  let '(p', rng') := rollForRound p rng in
  let n := Z.to_nat (chosenDie p) in
  length (roundRolls p') = n ∧
  Forall (λ r, 0 ≤ r ≤ chosenDie p) (roundRolls p') ∧
  roundScore p' = sumZ (roundRolls p') ∧
  0 ≤ roundScore p' ≤ chosenDie p * chosenDie p ∧
  p' = set_round (roundRolls p') (roundScore p') p ∧
  (∀ i, rng' i = rng (n + i)%nat) ∧
  (∀ rolls score, rollForRound (set_round rolls score p) rng = (p', rng')).
Proof.
  pose proof (rollForRound_rolls p rng) as H.
  rewrite rollForRound_eq in *. cbn [fst] in H. cbv zeta in *.
  destruct H as (Hlen & Hsum & Hr & _ & Hp).
  split_and!; [done | done | done | | | done | done |].
  - rewrite Hsum. apply sumZ_nonneg. eapply Forall_impl; [exact Hr |].
    cbn. lia.
  - rewrite Hsum.
    pose proof (sumZ_upper (chosenDie p) _
                  (Forall_impl _ _ _ Hr (λ r H, proj2 H))) as Hu.
    rewrite Hlen in Hu. destruct (decide (0 ≤ chosenDie p)); [| nia].
    rewrite Z2Nat.id in Hu by done. lia.
  - intros rolls score. by rewrite rollForRound_eq.
Qed.

(** X2: when none of the draws is exactly 0, every roll is a face of
    the die, from 1 to its number of sides, and the score is at least
    that number. *)
Theorem rollForRound_faces p rng :
  (∀ k, (k < Z.to_nat (chosenDie p))%nat → mant (rng k) ≠ 0) →
  let p' := (rollForRound p rng).1 in
  Forall (λ r, 1 ≤ r ≤ chosenDie p) (roundRolls p') ∧
  chosenDie p ≤ roundScore p'.
Proof.
  intros Hpos. destruct (rollForRound_rolls p rng) as (Hlen & Hsum & _ & Hr & _).
  assert (Forall (λ r, 1 ≤ r ≤ chosenDie p) (roundRolls (rollForRound p rng).1))
    as Hf.
  { apply Hr. intros k Hk.
    pose proof (unit_double_range (rng k)). specialize (Hpos k Hk). lia. }
  split; [done |]. cbv zeta. rewrite Hsum.
  pose proof (sumZ_lower 1 _ (Forall_impl _ _ _ Hf (λ r H, proj1 H))) as Hl.
  rewrite Hlen in Hl. lia.
Qed.

Lemma rollForRound_faces_witness :
  (∀ k, (k < Z.to_nat (chosenDie (newPlayer "You" true)))%nat →
        mant (constRng u_half k) ≠ 0) ∧
  roundRolls (rollForRound (newPlayer "You" true) (constRng u_half)).1
  = [2; 2; 2; 2].
Proof.
  assert (∀ k, (k < Z.to_nat (chosenDie (newPlayer "You" true)))%nat →
               mant (constRng u_half k) ≠ 0) as H by (intros k _; by vm_compute).
  split; [exact H |].
  pose proof (rollForRound_faces (newPlayer "You" true) (constRng u_half) H)
    as [_ _].
  by vm_compute.
Defined.

(** X3: with nothing to roll, a selected die of 0 sides as [bestDie]
    gives for an empty [dice], or any number below, [rollForRound]
    draws nothing and leaves no rolls and a score of 0. *)
Theorem rollForRound_no_sides p rng :
  chosenDie p ≤ 0 → rollForRound p rng = (set_round [] 0 p, rng).
Proof.
  intros Hs. rewrite rollForRound_eq.
  assert (Z.to_nat (chosenDie p) = 0%nat) as -> by lia. done.
Qed.

Lemma rollForRound_no_sides_witness :
  chosenDie player_zero ≤ 0 ∧
  roundScore (rollForRound player_zero (constRng u_top)).1 = 0.
Proof.
  assert (chosenDie player_zero ≤ 0) as H by done.
  split; [exact H |].
  by rewrite (rollForRound_no_sides player_zero (constRng u_top) H).
Defined.

Lemma list_max_Z_spec d l :
  list_max_Z d l ∈ d :: l ∧ ∀ x, x ∈ d :: l → x ≤ list_max_Z d l.
Proof.
  unfold list_max_Z. induction l as [| y l [Hin Hmax]]; cbn [foldr].
  - split; [apply elem_of_cons; by left |].
    intros x ->%list_elem_of_singleton. done.
  - assert (d ≤ foldr Z.max d l) as Hd by (apply Hmax, elem_of_cons; by left).
    split.
    + rewrite !elem_of_cons in *.
      destruct (Z.max_spec y (foldr Z.max d l)) as [[_ ->] | [_ ->]];
        [tauto | by right; left].
    + intros x Hx. rewrite !elem_of_cons in Hx.
      destruct Hx as [-> | [-> | Hx]]; [lia | lia |].
      assert (x ≤ foldr Z.max d l) by (apply Hmax, elem_of_cons; by right).
      lia.
Qed.

Lemma bestDie_elem_max p :
  dice p ≠ [] → bestDie p ∈ dice p ∧ ∀ d, d ∈ dice p → d ≤ bestDie p.
Proof.
  unfold bestDie. destruct (dice p) as [| d l]; [done |].
  intros _. apply list_max_Z_spec.
Qed.

(** X4: [bestDie] is 0 for a player without dice; otherwise it is one
    of the player's dice and no die of the player is larger. Where
    [dice] is in descending order it is the first entry. *)
Theorem bestDie_spec p :
  (dice p = [] → bestDie p = 0) ∧
  (dice p ≠ [] → bestDie p ∈ dice p ∧ ∀ d, d ∈ dice p → d ≤ bestDie p) ∧
  (StronglySorted desc (dice p) → bestDie p = default 0 (head (dice p))).
Proof.
  split_and!; [| apply bestDie_elem_max |].
  { unfold bestDie. by intros ->. }
  intros Hs. destruct (dice p) as [| d l] eqn:Hd; [by unfold bestDie; rewrite Hd |].
  destruct (bestDie_elem_max p) as [Hin Hmax]; [by rewrite Hd |].
  rewrite Hd in Hin, Hmax. cbn.
  apply StronglySorted_inv in Hs as [_ Hl].
  apply Z.le_antisymm; [| apply Hmax, elem_of_cons; by left].
  apply elem_of_cons in Hin as [-> | Hin]; [done |].
  rewrite Forall_forall in Hl. by apply Hl.
Qed.

Lemma sumZ_app l k : sumZ (l ++ k) = sumZ l + sumZ k.
Proof. induction l; unfold sumZ in *; cbn [foldr app] in *; lia. Qed.

Lemma sumZ_perm l k : l ≡ₚ k → sumZ l = sumZ k.
Proof. induction 1; unfold sumZ in *; cbn; lia. Qed.

Lemma sumZ_insert l k c t :
  l !! k = Some c → sumZ (<[k := t]> l) = sumZ l + t - c.
Proof.
  revert k. induction l as [| x l IH]; intros [| k] Hk; try done.
  - injection Hk as ->. unfold sumZ. cbn. lia.
  - cbn in Hk. specialize (IH k Hk).
    change (<[S k := t]> (x :: l)) with (x :: <[k := t]> l).
    unfold sumZ in *. cbn [foldr]. lia.
Qed.

(** The number of entries equal to [100]. *)
Lemma count100_perm (l k : list Z) :
  l ≡ₚ k →
  length (filter (λ d, d = 100) l) = length (filter (λ d, d = 100) k).
Proof. intros H. by rewrite H. Qed.

Lemma count100_insert (l : list Z) k c t :
  l !! k = Some c → c ≠ 100 →
  (length (filter (λ d : Z, d = 100%Z) l)
   ≤ length (filter (λ d : Z, d = 100%Z) (<[k := t]> l)))%nat.
Proof.
  revert k. induction l as [| x l IH]; intros [| k] Hk Hc; try done.
  - injection Hk as ->.
    change (<[0%nat := t]> (c :: l)) with (t :: l).
    rewrite !filter_cons.
    rewrite (decide_False (P := c = 100)) by done.
    case_decide; cbn [length]; lia.
  - cbn in Hk. specialize (IH k Hk Hc).
    change (<[S k := t]> (x :: l)) with (x :: <[k := t]> l).
    rewrite !filter_cons.
    case_decide; cbn [length]; lia.
Qed.

(** X5: the automated choice is [upgrade] for every selected die of
    the table but the D100, and [duplicate] for the D100. Applied to a
    player that holds the selected die, it adds a D100 next to a D100,
    or turns the first die of the selected tier into the next, larger
    one: the sides of the player's dice add up to strictly more than
    before, and the player has no D100 fewer. *)
Theorem getAIChoice_effect p :
  chosenDie p ∈ DICE_SIDES →
  chosenDie p ∈ dice p →
  let p' := (applyChoice (getAIChoice p) p).2 in
  (getAIChoice p = "duplicate" ↔ chosenDie p = 100) ∧
  (getAIChoice p = "upgrade" ↔ chosenDie p ≠ 100) ∧
  (chosenDie p = 100 → dice p' ≡ₚ 100 :: dice p) ∧
  (chosenDie p ≠ 100 → length (dice p') = length (dice p)) ∧
  sumZ (dice p) < sumZ (dice p') ∧
  (d100Count p ≤ d100Count p')%nat.
Proof.
  intros Htab Hheld.
  destruct (indexOf_elem _ _ Hheld) as (k & Hk & Hlk & _).
  assert (indexOf (chosenDie p) DICE_SIDES < 6 ∧ chosenDie p ≠ 100 ∧
          chosenDie p < DICE_SIDES !!!
            Z.to_nat (Z.min (indexOf (chosenDie p) DICE_SIDES + 1) 6)
          ∨ indexOf (chosenDie p) DICE_SIDES = 6 ∧ chosenDie p = 100)
    as Hcases.
  { unfold DICE_SIDES in Htab. rewrite !elem_of_cons, elem_of_nil in Htab.
    destruct Htab as [-> | [-> | [-> | [-> | [-> | [-> | [-> | []]]]]]]];
      vm_compute; intuition congruence. }
  unfold getAIChoice, d100Count.
  change (Z.of_nat (length DICE_SIDES) - 1) with 6.
  destruct Hcases as [(Hidx & Hne & Hlt) | (Hidx & Heq)].
  - rewrite decide_True by done. rewrite applyChoice_upgrade_eq.
    cbn [snd dice set_dice set_madeFirstChoice]; cbv zeta.
    change (Z.of_nat (length DICE_SIDES) - 1) with 6.
    rewrite Hk, Nat2Z.id. rewrite decide_True by lia.
    rewrite (sumZ_perm _ _ (sort_desc_perm _)), sort_desc_length,
      length_insert, (count100_perm _ _ (sort_desc_perm _)).
    rewrite (sumZ_insert _ _ _ _ Hlk).
    split_and!; [done | done | done | done | lia |].
    by eapply count100_insert.
  - rewrite decide_False by lia. rewrite applyChoice_duplicate_eq.
    cbn [snd dice set_dice set_madeFirstChoice]; cbv zeta.
    rewrite (sumZ_perm _ _ (sort_desc_perm _)),
      (count100_perm _ _ (sort_desc_perm _)), sort_desc_perm.
    rewrite filter_app, !length_app, sumZ_app, Heq.
    split_and!; [done | done | | done | |].
    + intros _. by rewrite <- Permutation_cons_append.
    + unfold sumZ. cbn. lia.
    + lia.
Qed.

Lemma getAIChoice_effect_witness :
  chosenDie player_ai ∈ DICE_SIDES ∧
  chosenDie player_ai ∈ dice player_ai ∧
  getAIChoice player_ai = "upgrade" ∧
  sumZ (dice player_ai)
  < sumZ (dice (applyChoice (getAIChoice player_ai) player_ai).2).
Proof.
  assert (chosenDie player_ai ∈ DICE_SIDES) as H1.
  { by apply (list_elem_of_lookup_2 _ 5%nat). }
  assert (chosenDie player_ai ∈ dice player_ai) as H2.
  { by apply (list_elem_of_lookup_2 _ 0%nat). }
  split_and!; [exact H1 | exact H2 | |].
  - by apply (getAIChoice_effect player_ai H1 H2).
  - by apply (getAIChoice_effect player_ai H1 H2).
Defined.

(** ** [applyChoice] off its intended inputs *)

(** X6: [applyChoice('upgrade')] for a selected die the player does
    not hold changes no die: [dice] is only put in descending order.
    The call still returns the selected die and still ends the
    player's protection. *)
Theorem applyChoice_upgrade_not_held p :
  chosenDie p ∉ dice p →
  applyChoice "upgrade" p
  = (chosenDie p, set_dice (sort_desc (dice p)) (set_madeFirstChoice true p)).
Proof.
  intros Hno. rewrite applyChoice_upgrade_eq. cbv zeta.
  rewrite (indexOf_not_elem _ _ Hno). by rewrite decide_False by lia.
Qed.

Lemma applyChoice_upgrade_not_held_witness :
  (chosenDie player_stray ∉ dice player_stray) ∧
  dice (applyChoice "upgrade" player_stray).2 = [8; 6] ∧
  madeFirstChoice (applyChoice "upgrade" player_stray).2 = true.
Proof.
  assert (chosenDie player_stray ∉ dice player_stray) as H.
  { cbn. rewrite !elem_of_cons, elem_of_nil. lia. }
  split; [exact H |].
  by rewrite (applyChoice_upgrade_not_held player_stray H).
Defined.

(** X7: [applyChoice] tests its argument against ['duplicate'] only:
    every other string is taken as ['upgrade']. *)
Theorem applyChoice_other_string (choice : string) p :
  choice ≠ "duplicate" → applyChoice choice p = applyChoice "upgrade" p.
Proof.
  intros Hc. unfold applyChoice.
  rewrite (decide_False (P := choice = "duplicate")) by done.
  by rewrite (decide_False (P := "upgrade" = "duplicate")).
Qed.

Lemma applyChoice_other_string_witness :
  "keep" ≠ "duplicate" ∧
  dice (applyChoice "keep" player_644).2 = [6; 6; 4].
Proof.
  assert ("keep" ≠ "duplicate") as H by done.
  split; [exact H |].
  by rewrite (applyChoice_other_string "keep" player_644 H).
Defined.

(** ** [loseRandomDie] *)

(** X8: [loseRandomDie] returns [null] exactly for a player without
    dice and for a protected player whose only die is a D4; it then
    draws nothing and changes nothing. In every other case it draws
    once and takes exactly one entry out of [dice]: the value returned
    is the die at one position of [dice], that position is removed,
    the other dice keep their order, and no other field changes. *)
Theorem loseRandomDie_outcome p rng :
  let '(r, p', rng') := loseRandomDie p rng in
  (r = None ↔ dice p = [] ∨ (madeFirstChoice p = false ∧ dice p = [4])) ∧
  (r = None → p' = p ∧ rng' = rng) ∧
  (∀ d, r = Some d →
     ∃ pick, dice p !! pick = Some d ∧
             p' = set_dice (delete pick (dice p)) p ∧
             S (length (dice p')) = length (dice p) ∧
             dice p ≡ₚ d :: dice p' ∧
             rng' = λ i, rng (S i)).
Proof.
  destruct (loseRandomDie_cases p rng) as [[-> Hc] | (pick & d & -> & Hd & Hp)].
  - split_and!; [done | done | done].
  - split_and!.
    + split; [done |]. intros Hc.
      pose proof (lookup_lt_Some _ _ _ Hd) as Hlt.
      destruct Hc as [Hc | [Hm Hc]]; rewrite Hc in *; cbn in Hlt; [lia |].
      specialize (Hp Hm). assert (pick = 0%nat) as -> by lia. done.
    + done.
    + intros d' Hd'. injection Hd' as <-. exists pick.
      pose proof (lookup_lt_Some _ _ _ Hd) as Hlt.
      split_and!; [done | done | | | done]; cbn [dice set_dice].
      * rewrite length_delete by done. lia.
      * by apply delete_Permutation.
Qed.

(** X9: every die [loseRandomDie] is allowed to take can be the one
    taken: for each position of [dice], other than that of the first
    D4 of a protected player, some value of [Math.random()] makes the
    call remove the die at that position. *)
Theorem loseRandomDie_any_eligible p pick d :
  Z.of_nat (length (dice p)) < 2 ^ 52 →
  dice p !! pick = Some d →
  (madeFirstChoice p = false → Z.of_nat pick ≠ indexOf 4 (dice p)) →
  ∃ u, ∀ rng, rng 0%nat = u →
    loseRandomDie p rng
    = (Some d, set_dice (delete pick (dice p)) p, λ i, rng (S i)).
Proof.
  intros Hlen Hd Hprot.
  pose proof (lookup_lt_Some _ _ _ Hd) as Hlt.
  assert (∃ e, eligibleDice p = Some e ∧ pick ∈ e ∧
               (length e ≤ length (dice p))%nat) as (e & He & Hin & Hle).
  { unfold eligibleDice, isProtected.
    rewrite decide_False by lia.
    assert (pick ∈ seq 0 (length (dice p))) as Hseq
      by (apply elem_of_seq; lia).
    destruct (madeFirstChoice p); cbn [negb].
    { eexists. split_and!; [done | done | by rewrite length_seq]. }
    specialize (Hprot eq_refl).
    assert (pick ∈ filter (λ i, Z.of_nat i ≠ indexOf 4 (dice p))
                          (seq 0 (length (dice p)))) as Hf
      by (by apply list_elem_of_filter).
    case_decide as H4.
    - rewrite decide_False.
      2:{ intros Hone. destruct (decide (4 ∈ dice p)) as [Hi | Hi].
          - destruct (indexOf_elem _ _ Hi) as (k & Hk & Hlk & _).
            apply lookup_lt_Some in Hlk. lia.
          - by apply indexOf_not_elem in Hi. }
      rewrite decide_False.
      2:{ intros Hz. apply length_zero_iff_nil in Hz. rewrite Hz in Hf.
          by apply elem_of_nil in Hf. }
      eexists. split_and!; [done | done |].
      etrans; [apply length_filter |]. by rewrite length_seq.
    - rewrite decide_False by (rewrite length_seq; lia).
      eexists. split_and!; [done | done | by rewrite length_seq]. }
  apply list_elem_of_lookup in Hin as [k Hk].
  pose proof (lookup_lt_Some _ _ _ Hk) as Hklt.
  destruct (floor_times_onto (Z.of_nat (length e)) (Z.of_nat k))
    as [u Hu]; [lia | lia |].
  exists u. intros rng Hrng. unfold loseRandomDie. rewrite He.
  cbn [next]. rewrite Hrng, Hu, Nat2Z.id.
  rewrite (list_lookup_total_correct _ _ _ Hk).
  by rewrite (list_lookup_total_correct _ _ _ Hd).
Qed.

Lemma loseRandomDie_any_eligible_witness :
  Z.of_nat (length (dice player_44)) < 2 ^ 52 ∧
  dice player_44 !! 1%nat = Some 4 ∧
  ∃ u, (loseRandomDie player_44 (constRng u)).1.1 = Some 4.
Proof.
  assert (Z.of_nat (length (dice player_44)) < 2 ^ 52) as H1 by done.
  assert (dice player_44 !! 1%nat = Some 4) as H2 by done.
  assert (madeFirstChoice player_44 = false →
          Z.of_nat 1 ≠ indexOf 4 (dice player_44)) as H3 by done.
  split_and!; [exact H1 | exact H2 |].
  destruct (loseRandomDie_any_eligible player_44 1 4 H1 H2 H3) as [u Hu].
  exists u. by rewrite (Hu (constRng u) eq_refl).
Defined.

(** ** [applyChoice] followed by [bestDie] *)

Lemma bestDie_unique p m :
  m ∈ dice p → (∀ d, d ∈ dice p → d ≤ m) → bestDie p = m.
Proof.
  intros Hin Hmax.
  destruct (bestDie_elem_max p) as [Hin' Hmax'].
  { intros Hn. rewrite Hn in Hin. by apply elem_of_nil in Hin. }
  apply Z.le_antisymm; [by apply Hmax | by apply Hmax'].
Qed.

(** X10: after [applyChoice('upgrade')] on a die of the table that the
    player holds, [bestDie] is the larger of the previous best die and
    the tier the die was upgraded to. For a player that selected its
    best die, as every automated player does, it is that tier: the
    one the log names as the result of the upgrade. *)
Theorem applyChoice_upgrade_bestDie p i :
  DICE_SIDES !! i = Some (chosenDie p) →
  chosenDie p ∈ dice p →
  let next := default 100 (DICE_SIDES !! S i) in
  let p' := (applyChoice "upgrade" p).2 in
  bestDie p' = Z.max (bestDie p) next ∧
  (chosenDie p = bestDie p → bestDie p' = next).
Proof.
  intros Hi Hheld next p'.
  destruct (upgrade_target _ _ Hi) as [Hidx Ht]. fold next in Ht.
  destruct (indexOf_elem _ _ Hheld) as (k & Hk & Hlk & _).
  pose proof (lookup_lt_Some _ _ _ Hlk) as Hklt.
  assert (chosenDie p ≤ next) as Hle.
  { unfold next. clear -Hi.
    do 7 (destruct i as [| i]; [injection Hi as <-; by vm_compute |]).
    done. }
  assert (dice p' ≡ₚ <[k := next]> (dice p)) as Hperm.
  { unfold p'. rewrite applyChoice_upgrade_eq. cbn [snd dice set_dice].
    cbv zeta. rewrite Ht, Hk, Nat2Z.id, decide_True by lia.
    apply sort_desc_perm. }
  assert (dice p ≠ []) as Hne by (intros Hn; by rewrite Hn in Hlk).
  destruct (bestDie_elem_max p Hne) as [Hbin Hbmax].
  assert (bestDie p' = Z.max (bestDie p) next) as Hmax.
  { apply bestDie_unique.
    - rewrite Hperm. destruct (Z.max_spec (bestDie p) next) as [[_ ->] | [Hlt ->]].
      + by apply list_elem_of_insert.
      + apply list_elem_of_lookup in Hbin as [j Hj].
        destruct (decide (k = j)) as [<- | Hkj].
        * rewrite Hlk in Hj. injection Hj as Hj.
          assert (bestDie p = next) as -> by lia.
          by apply list_elem_of_insert.
        * apply (list_elem_of_lookup_2 _ j).
          by rewrite list_lookup_insert_ne.
    - intros d Hd. rewrite Hperm in Hd.
      apply list_elem_of_lookup in Hd as [j Hj].
      apply list_lookup_insert_Some in Hj as [(_ & <- & _) | [_ Hj]]; [lia |].
      apply list_elem_of_lookup_2, Hbmax in Hj. lia. }
  split; [done |]. intros Heq. rewrite Hmax. lia.
Qed.

Lemma applyChoice_upgrade_bestDie_witness :
  DICE_SIDES !! 0%nat = Some (chosenDie player_644) ∧
  chosenDie player_644 ∈ dice player_644 ∧
  bestDie (applyChoice "upgrade" player_644).2 = 6.
Proof.
  assert (DICE_SIDES !! 0%nat = Some (chosenDie player_644)) as H1 by done.
  assert (chosenDie player_644 ∈ dice player_644) as H2.
  { by apply (list_elem_of_lookup_2 _ 1%nat). }
  split_and!; [exact H1 | exact H2 |].
  by destruct (applyChoice_upgrade_bestDie player_644 0 H1 H2) as [-> _].
Defined.

(** ** [resolveRound] *)

(** X11: [resolveRound] fails, on [winner.name] of an [undefined]
    winner, exactly when no player of [active] has a score of [-1] or
    more: the maximum then stays at its initial [-1] and nobody
    matches it. With scores that are sums of rolls this is the call
    with no active player at all. *)
Theorem resolveRound_fails_iff (active : list nat) w rng :
  resolveRound active w rng = None ↔
  ∀ i, i ∈ active → roundScore (players (state w) !!! i) < -1.
Proof.
  set (ps := players (state w)).
  destruct (maxScore_fold ps active (-1)) as (Hge & Hmax & Hex).
  cbv zeta in Hge, Hmax, Hex. fold (maxScoreOf ps active) in Hge, Hmax, Hex.
  unfold resolveRound. cbn [next]. fold ps.
  set (tied := filter (λ i, roundScore (ps !!! i) = maxScoreOf ps active)
                      active).
  split.
  - intros Hnone.
    assert (tied = []) as Hnil.
    { destruct tied as [| t tied'] eqn:Ht; [done |].
      pose proof (floor_times_bounds (rng 0%nat)
                    (Z.of_nat (length (t :: tied'))) ltac:(cbn; lia)) as Hb.
      destruct (lookup_lt_is_Some_2 (t :: tied')
                  (Z.to_nat (floor_times (rng 0%nat)
                     (Z.of_nat (length (t :: tied')))))) as [x Hx]; [lia |].
      rewrite Hx in Hnone. cbn [mbind option_bind] in Hnone.
      by destruct (foldl loseStep _ _). }
    assert (maxScoreOf ps active = -1) as Hm1.
    { destruct Hex as [? | (i & Hi & Heq)]; [done |].
      assert (i ∈ tied) as Hin by (by apply list_elem_of_filter).
      rewrite Hnil in Hin. by apply elem_of_nil in Hin. }
    intros i Hi. specialize (Hmax i Hi).
    destruct (decide (roundScore (ps !!! i) = -1)) as [Heq | Hne]; [| lia].
    assert (i ∈ tied) as Hin.
    { apply list_elem_of_filter. split; [congruence | done]. }
    rewrite Hnil in Hin. by apply elem_of_nil in Hin.
  - intros Hall.
    assert (tied = []) as ->.
    { destruct tied as [| t tied'] eqn:Ht; [done |].
      assert (t ∈ tied) as Hin by (rewrite Ht; apply elem_of_cons; by left).
      apply list_elem_of_filter in Hin as [Heq Hin].
      specialize (Hall t Hin). lia. }
    by rewrite lookup_nil.
Qed.

Lemma loseStep_allDice w rng i :
  (i < length (players (state w)))%nat →
  allDice (loseStep (w, rng) i).1 ≡ₚ allDice w ∧
  length (players (state (loseStep (w, rng) i).1)) = length (players (state w)).
Proof.
  intros Hlt. destruct (lookup_lt_is_Some_2 _ _ Hlt) as [p Hp].
  destruct (loseStep_spec w rng i p Hp)
    as (w' & rng' & l & p' & -> & Hps & (Hlost & _) & Hpool & _).
  cbn [fst]. split; [| by rewrite Hps, length_insert].
  unfold allDice. rewrite Hps, Hpool.
  rewrite insert_take_drop by done.
  rewrite <- (take_drop_middle _ _ _ Hp) at 3.
  rewrite !fmap_app, !fmap_cons, !concat_app, !concat_cons.
  assert (dice p ≡ₚ dice p' ++ omap id [l]) as ->.
  { destruct l as [d |]; cbn in Hlost |- *.
    - destruct Hlost as (k & Hk & -> & _).
      rewrite <- Permutation_cons_append. by apply delete_Permutation.
    - by rewrite Hlost, app_nil_r. }
  rewrite <- !app_assoc. do 2 f_equiv.
  rewrite (app_assoc _ (pool (state w))). apply Permutation_app_comm.
Qed.

Lemma loseLoop_allDice losers w rng :
  (∀ i, i ∈ losers → (i < length (players (state w)))%nat) →
  allDice (foldl loseStep (w, rng) losers).1 ≡ₚ allDice w.
Proof.
  revert w rng. induction losers as [| i losers IH]; intros w rng Hlt;
    [done |].
  cbn [foldl].
  destruct (loseStep_allDice w rng i) as [Hperm Hlen];
    [apply Hlt, elem_of_cons; by left |].
  destruct (loseStep (w, rng) i) as [w1 rng1]. cbn [fst] in *.
  rewrite IH; [done |].
  intros j Hj. rewrite Hlen. apply Hlt, elem_of_cons. by right.
Qed.

(** X12: a round's resolution neither makes nor destroys a die: the
    dice of all players together with the pool are, as a multiset,
    the same after [resolveRound] as before. *)
Theorem resolveRound_conserves_dice (active : list nat) w rng r :
  (∀ i, i ∈ active → (i < length (players (state w)))%nat) →
  resolveRound active w rng = Some r →
  allDice (res_world r) ≡ₚ allDice w.
Proof.
  intros Hlt Hr. unfold resolveRound in Hr. cbn [next] in Hr.
  destruct (_ !! _) as [winner |]; [| done].
  cbn [mbind option_bind] in Hr.
  pose proof (loseLoop_allDice (filter (λ i, i ≠ winner) active)
                (showSection results_section (set_phase resolving w))
                (λ i, rng (S i))) as Hperm.
  destruct (foldl loseStep _ _) as [w' rng']. injection Hr as <-.
  cbn [res_world fst] in *. etrans; [| apply Hperm].
  - done.
  - intros i [_ Hi]%list_elem_of_filter. by apply Hlt.
Qed.

Lemma resolveRound_conserves_dice_witness :
  ∃ r, resolveRound (activePlayers (players (state world_rolled)))
                    world_rolled (constRng u_top) = Some r ∧
       allDice (res_world r) ≡ₚ allDice world_rolled.
Proof.
  destruct (resolveRound_is_Some
              (activePlayers (players (state world_rolled)))
              world_rolled (constRng u_top)) as [r Hr]; [done | |].
  { intros i Hi. vm_compute in Hi.
    repeat (apply elem_of_cons in Hi as [-> | Hi]; [by vm_compute |]).
    by apply not_elem_of_nil in Hi. }
  exists r. split; [exact Hr |].
  apply (resolveRound_conserves_dice _ _ _ _ (activePlayers_lt _) Hr).
Defined.

(** ** [initGame] *)

Lemma newPlayers_select n names :
  (λ p, if bool_decide (isHuman p = false ∧ eliminated p = false)
        then set_chosenDie (bestDie p) p else p) <$> newPlayers n names
  = newPlayers n names.
Proof.
  unfold newPlayers. rewrite fmap_cons. f_equal.
  rewrite <- list_fmap_compose. by apply list_fmap_ext.
Qed.

Lemma initGame_fresh_state d n names w w' :
  initGame d n names w = Some w' →
  state w' = mkState (newPlayers n names) [] 1 d n select_die.
Proof.
  unfold initGame, startRound.
  cbn [players state set_players set_round_no set_phase hideAll foldl
       hideSection set_hidden dom showScreen round pool difficulty
       numOpponents phase].
  fold (newPlayers n names). rewrite newPlayers_select.
  cbn [newPlayers lookup list_lookup mbind option_bind eliminated newPlayer
       dice length].
  rewrite decide_False by lia. by intros [= <-].
Qed.


Lemma NoDup_AI_NAMES : NoDup AI_NAMES.
Proof. apply (bool_decide_unpack _). by vm_compute. Qed.

(** X14: with at most seven opponents, as many as there are names,
    the players [initGame] makes have pairwise distinct names, and
    the first of them, and no other, is the human player. *)
Theorem initGame_names_distinct d n names w w' :
  names ≡ₚ AI_NAMES → (n ≤ 7)%nat →
  initGame d n names w = Some w' →
  NoDup (name <$> players (state w')) ∧
  ∀ i p, players (state w') !! i = Some p → (isHuman p = true ↔ i = 0%nat).
Proof.
  intros Hperm Hn Hinit.
  pose proof (initGame_fresh_state d n names w w' Hinit) as Hst.
  rewrite Hst. cbn [players]. clear Hinit Hst.
  assert (length names = 7%nat) as Hlen by (by rewrite Hperm).
  assert (name <$> newPlayers n names = "You" :: take n names) as Hnames.
  { unfold newPlayers. rewrite fmap_cons. f_equal.
    rewrite <- list_fmap_compose. apply list_eq. intros i.
    rewrite list_lookup_fmap.
    destruct (decide (i < n)%nat) as [Hi | Hi].
    - rewrite lookup_seq_lt by done. rewrite lookup_take_lt by done. cbn.
      by rewrite list_lookup_lookup_total_lt by lia.
    - rewrite lookup_seq_ge by lia. by rewrite lookup_take_ge by lia. }
  split.
  - rewrite Hnames. apply NoDup_cons. split.
    + intros Hin. apply elem_of_take in Hin as (i & Hi%list_elem_of_lookup_2 & _).
      rewrite Hperm in Hi. revert Hi. apply (bool_decide_unpack _).
      by vm_compute.
    + apply (sublist_NoDup _ names); [| apply sublist_take].
      rewrite Hperm. apply NoDup_AI_NAMES.
  - intros [| i] p Hp; cbn in Hp.
    + by injection Hp as <-.
    + apply list_lookup_fmap_Some in Hp as (k & -> & _). done.
Qed.

Lemma initGame_names_distinct_witness :
  AI_NAMES ≡ₚ AI_NAMES ∧ (2 ≤ 7)%nat ∧
  ∃ w', initGame easy 2 AI_NAMES world0 = Some w' ∧
        NoDup (name <$> players (state w')).
Proof.
  assert (AI_NAMES ≡ₚ AI_NAMES) as H1 by done.
  assert (2 ≤ 7)%nat as H2 by lia.
  split_and!; [exact H1 | exact H2 |].
  assert (is_Some (initGame easy 2 AI_NAMES world0)) as [w' Hw]
    by (by eexists; vm_compute).
  exists w'. split; [exact Hw |].
  apply (initGame_names_distinct easy 2 AI_NAMES world0 w' H1 H2 Hw).
Defined.

(** ** The dice between any two events *)

Lemma Forall_core (P : Player → Prop) (ps ps' : list Player) :
  (∀ p p', core p' = core p → P p → P p') →
  core <$> ps' = core <$> ps → Forall P ps → Forall P ps'.
Proof.
  intros HP Hc. rewrite !Forall_lookup. intros H i p' Hi.
  destruct (core_lookup _ _ _ _ Hc Hi) as (p & Hp & Hcp). eauto.
Qed.

Lemma diceOk_core p p' : core p' = core p → diceOk p → diceOk p'.
Proof. unfold core, diceOk. intros [= _ Hd _ _]. by rewrite Hd. Qed.

Lemma d100Count_core p p' : core p' = core p → d100Count p' = d100Count p.
Proof. unfold core, d100Count. intros [= _ Hd _ _]. by rewrite Hd. Qed.

Lemma static_core (ps ps' : list Player) :
  static <$> ps' = static <$> ps → core <$> ps' = core <$> ps.
Proof.
  intros H. apply (f_equal (fmap (λ x : string * _ * Z, x.1.2))) in H.
  by rewrite <- !list_fmap_compose in H.
Qed.

Lemma static_total (ps ps' : list Player) i :
  static <$> ps' = static <$> ps → static (ps' !!! i) = static (ps !!! i).
Proof.
  intros H.
  assert (length ps' = length ps) as Hlen.
  { by rewrite <- (length_fmap static ps'), H, length_fmap. }
  assert ((static <$> ps') !! i = (static <$> ps) !! i) as Hi by (by rewrite H).
  rewrite !list_lookup_fmap in Hi. rewrite !list_lookup_total_alt.
  destruct (ps' !! i), (ps !! i); cbn in *; congruence.
Qed.

Lemma holdsChosen_static p p' :
  static p' = static p → holdsChosen p → holdsChosen p'.
Proof.
  unfold static, core, holdsChosen. intros [= _ _ Hd _ _ Hc]. by rewrite Hd, Hc.
Qed.

Lemma allHold_static (ps ps' : list Player) l :
  static <$> ps' = static <$> ps → allHold ps l → allHold ps' l.
Proof.
  intros H Hall i Hi. eapply holdsChosen_static; [| by apply Hall].
  by apply static_total.
Qed.

Lemma static_insert (ps : list Player) i p' :
  static p' = static (ps !!! i) → static <$> <[i := p']> ps = static <$> ps.
Proof.
  intros H. rewrite list_fmap_insert. apply list_insert_id'.
  rewrite length_fmap. intros Hlt. rewrite list_lookup_fmap.
  rewrite (list_lookup_lookup_total_lt ps i Hlt). cbn. by rewrite H.
Qed.

Lemma rollAll_static (active : list nat) w rng :
  static <$> players (state (rollAll active w rng).1)
  = static <$> players (state w).
Proof.
  unfold rollAll. revert w rng.
  induction active as [| i active IH]; intros w rng; [done |].
  cbn [foldl].
  destruct (rollForRound (players (state w) !!! i) rng) as [p rng1] eqn:Hroll.
  rewrite IH. cbn. apply static_insert.
  pose proof (rollForRound_rolls (players (state w) !!! i) rng) as H.
  rewrite Hroll in H. cbn in H. destruct H as (_ & _ & _ & _ & ->). done.
Qed.

Lemma StronglySorted_delete (l : list Z) k :
  StronglySorted desc l → StronglySorted desc (delete k l).
Proof.
  revert k. induction l as [| x l IH]; intros k Hs; [done |].
  apply StronglySorted_inv in Hs as [Hs Hx].
  destruct k as [| k]; [done |].
  change (delete (S k) (x :: l)) with (x :: delete k l).
  constructor; [by apply IH |]. by apply Forall_delete.
Qed.

Lemma count100_delete (l : list Z) k :
  (length (filter (λ d : Z, d = 100%Z) (delete k l))
   ≤ length (filter (λ d : Z, d = 100%Z) l))%nat.
Proof.
  revert k. induction l as [| x l IH]; intros k; [done |].
  destruct k as [| k].
  - change (delete 0%nat (x :: l)) with l. rewrite filter_cons.
    case_decide; cbn [length]; lia.
  - change (delete (S k) (x :: l)) with (x :: delete k l).
    rewrite !filter_cons. specialize (IH k).
    case_decide; cbn [length]; lia.
Qed.

Lemma loserAfter_diceOk p p' l :
  loserAfter p p' l → diceOk p →
  diceOk p' ∧ (d100Count p' ≤ d100Count p)%nat ∧
  Forall (λ d, d ∈ DICE_SIDES) (omap id [l]).
Proof.
  intros (Hlost & _) [Hs Ht]. unfold diceOk, d100Count.
  destruct l as [d |]; cbn in Hlost |- *.
  - destruct Hlost as (k & Hk & -> & _).
    split; [split |]; [| | split].
    + by apply StronglySorted_delete.
    + by apply Forall_delete.
    + apply count100_delete.
    + constructor; [| done]. rewrite Forall_forall in Ht.
      by eapply Ht, list_elem_of_lookup_2.
  - rewrite Hlost. by split_and!.
Qed.

Lemma next_tier_in_table c :
  c ∈ DICE_SIDES →
  DICE_SIDES !!!
    Z.to_nat (Z.min (indexOf c DICE_SIDES + 1) (Z.of_nat (length DICE_SIDES) - 1))
  ∈ DICE_SIDES.
Proof.
  intros [i Hi]%list_elem_of_lookup.
  destruct (upgrade_target _ _ Hi) as [_ ->].
  do 7 (destruct i as [| i];
        [apply (bool_decide_unpack _); by vm_compute |]).
  done.
Qed.

Lemma applyChoice_diceOk c p :
  diceOk p → holdsChosen p → diceOk (applyChoice c p).2.
Proof.
  intros [Hs Ht] Hheld.
  assert (chosenDie p ∈ DICE_SIDES) as Hc.
  { rewrite Forall_forall in Ht. by apply Ht. }
  unfold applyChoice, diceOk.
  cbn [snd dice set_dice set_madeFirstChoice chosenDie].
  split; [apply sort_desc_sorted |].
  rewrite sort_desc_perm. case_decide.
  - apply Forall_app. split; [done |]. by constructor.
  - cbv zeta. case_decide; [| done].
    apply Forall_insert; [done |]. by apply next_tier_in_table.
Qed.

(** *** Each handler keeps [DiceInv] *)

Lemma DiceInv_load w : pageLoaded w → DiceInv w.
Proof.
  intros (Hst & Hsc & Hp). unfold DiceInv. rewrite Hst, Hsc. cbn.
  split_and!; [apply Forall_nil_2 | apply Forall_nil_2 | done].
Qed.

Lemma playerOk_alive_dice p : playerOk p → eliminated p = false → dice p ≠ [].
Proof. intros [Hiff _] Hel Hn. apply Hiff in Hn. congruence. Qed.

(** What [startRound] selects for a player in the game is a die the
    player holds. *)
Lemma selected_holds (p : Player) :
  playerOk p → eliminated p = false →
  holdsChosen (set_chosenDie (bestDie p) p) ∧
  holdsChosen (set_chosenDie (default 0 (head (dice p))) p).
Proof.
  intros Hok Hel. pose proof (playerOk_alive_dice p Hok Hel) as Hne.
  unfold holdsChosen. cbn [chosenDie dice set_chosenDie]. split.
  - by apply bestDie_elem_max.
  - destruct (dice p) as [| d l]; [done |]. apply elem_of_cons. by left.
Qed.

Lemma startRound_DiceInv w w' :
  Forall playerOk (players (state w)) → onlyFirstHuman (players (state w)) →
  headAlive (players (state w)) → pending w = None →
  screen (dom w) = game_screen →
  Forall diceOk (players (state w)) →
  Forall (λ d, d ∈ DICE_SIDES) (pool (state w)) →
  Forall (λ p, (d100Count p < targetD100s (difficulty (state w)))%nat)
         (players (state w)) →
  startRound w = Some w' → DiceInv w'.
Proof.
  intros Hok Hh (h & rest & Hps & Hel) Hp Hs Hd Hpool H100 Hstart.
  destruct (startRound_spec _ _ Hstart) as (Hc & Hs' & Hp' & Hb).
  revert Hstart. unfold startRound.
  set (f := λ p, if bool_decide (isHuman p = false ∧ eliminated p = false)
                 then set_chosenDie (bestDie p) p else p).
  set (w1 := hideAll (set_phase select_die (set_round_no _ w))).
  change (players (state w1)) with (players (state w)).
  change (players (state (set_players (f <$> players (state w)) w1)))
    with (f <$> players (state w)).
  assert (∀ p, core (f p) = core p) as Hfc.
  { intros p. unfold f. by case_bool_decide. }
  assert (∀ i, i ≠ 0%nat →
            i ∈ activePlayers (f <$> players (state w)) →
            holdsChosen ((f <$> players (state w)) !!! i)) as Hai.
  { intros i Hi0 (q & Hq & Hqel)%activePlayers_elem.
    rewrite (list_lookup_total_correct _ _ _ Hq).
    apply list_lookup_fmap_Some in Hq as (p & -> & Hpi).
    assert (eliminated (f p) = eliminated p) as Hfe.
    { specialize (Hfc p). unfold core in Hfc. congruence. }
    rewrite Hfe in Hqel.
    assert (isHuman p = false) as Hhum.
    { destruct (isHuman p) eqn:Hhum; [| done]. by destruct (Hi0 (Hh _ _ Hpi Hhum)). }
    unfold f. rewrite bool_decide_eq_true_2 by done.
    apply selected_holds; [| done]. by eapply Forall_lookup_1. }
  rewrite Hps in *. cbn [fmap list_fmap lookup list_lookup mbind option_bind].
  assert (eliminated (f h) = false) as Helf.
  { specialize (Hfc h). unfold core in Hfc. congruence. }
  assert (dice (f h) = dice h) as Hdf.
  { specialize (Hfc h). unfold core in Hfc. congruence. }
  assert (playerOk h) as Hokh by (by inversion Hok).
  rewrite Helf. intros Hstart.
  assert (Forall diceOk (players (state w')) ∧
          Forall (λ p, (d100Count p < targetD100s (difficulty (state w)))%nat)
                 (players (state w')) ∧
          pool (state w') = pool (state w) ∧
          difficulty (state w') = difficulty (state w)) as (Hd' & H100' & Hpl & Hdf').
  { split_and!.
    - eapply Forall_core; [apply diceOk_core | exact Hc | done].
    - eapply Forall_core; [| exact Hc | done].
      intros p p' Hpp. by rewrite (d100Count_core _ _ Hpp).
    - case_decide; by injection Hstart as <-.
    - case_decide; by injection Hstart as <-. }
  unfold DiceInv, busy. rewrite Hdf', Hpl, Hp', Hp, Hb.
  split_and!; [done | done |]. intros _.
  split_and!; [done | lia | | | | done].
  - case_decide as Hlen; injection Hstart as <-; [| by cbn].
    intros _. cbn [dom showDieSelector showSection set_hidden dieOptions
                   set_dieOptions players state set_players].
    split_and!; [done | done |].
    intros i Hi Hi0. by apply Hai.
  - case_decide as Hlen; injection Hstart as <-; [by cbn |].
    intros _ i Hi.
    cbn [players state showRollSection showSection set_hidden modPlayer
         set_players alter list_alter] in Hi |- *.
    destruct i as [| i].
    + change (holdsChosen
                (set_chosenDie (default 0 (head (dice (f h)))) (f h))).
      apply selected_holds; [| done].
      eapply playerOk_core; [apply Hfc | done].
    + assert (S i ∈ activePlayers (f h :: (f <$> rest))) as Hi'.
      { apply activePlayers_elem. apply activePlayers_elem in Hi. done. }
      by apply (Hai (S i)).
  - case_decide as Hlen; injection Hstart as <-; by cbn.
Qed.

Lemma buttons_zero w id :
  buttons w = 0%nat → id ≠ results_section → hidden (dom w) id = true.
Proof.
  unfold buttons, shown. intros Hb Hid.
  destruct (hidden (dom w) die_selector) eqn:?,
           (hidden (dom w) roll_section) eqn:?,
           (hidden (dom w) choice_section) eqn:?,
           (hidden (dom w) continue_section) eqn:?; try done.
  by destruct id.
Qed.

Lemma buttons_one w id j :
  buttons w = 1%nat → hidden (dom w) id = false →
  id ≠ results_section → j ≠ results_section → j ≠ id →
  hidden (dom w) j = true.
Proof.
  unfold buttons, shown. intros Hb Hv Hid Hj Hne.
  destruct (hidden (dom w) die_selector) eqn:?,
           (hidden (dom w) roll_section) eqn:?,
           (hidden (dom w) choice_section) eqn:?,
           (hidden (dom w) continue_section) eqn:?; try done;
    destruct id, j; congruence.
Qed.

Lemma checkWinCondition_target w w' :
  checkWinCondition w = Some w' →
  (∃ x, w' = endGame x w) ∨
  (w' = set_phase continue (showSection continue_section w) ∧
   Forall (λ p, (d100Count p < targetD100s (difficulty (state w)))%nat)
          (players (state w))).
Proof.
  unfold checkWinCondition. intros H.
  destruct (list_find _ _) as [[i p] |] eqn:Hf; [injection H as <-; eauto |].
  apply list_find_None in Hf.
  case_decide; [injection H as <-; eauto |].
  destruct (players (state w) !! 0%nat) as [h |]; [| done].
  cbn in H. destruct (eliminated h); injection H as <-; [eauto |].
  right. split; [done |]. eapply Forall_impl; [exact Hf |].
  cbn. intros p Hp. lia.
Qed.

Lemma checkWinCondition_DiceInv w w' :
  pending w = None → buttons w = 0%nat →
  Forall diceOk (players (state w)) →
  Forall (λ d, d ∈ DICE_SIDES) (pool (state w)) →
  checkWinCondition w = Some w' → DiceInv w'.
Proof.
  intros Hp Hb Hd Hpool [[x ->] | [-> H100]]%checkWinCondition_target.
  - unfold DiceInv. cbn. by split_and!.
  - unfold DiceInv, busy.
    cbn [players state set_phase showSection set_hidden pending dom screen
         pool difficulty dieOptions upgradeDisabled hidden].
    rewrite Hp. split_and!; [done | done |]. intros _.
    pose proof (buttons_zero w die_selector Hb) as H1.
    pose proof (buttons_zero w roll_section Hb) as H2.
    pose proof (buttons_zero w choice_section Hb) as H3.
    rewrite !decide_False by done. rewrite H1, H2, H3 by done.
    split_and!; [done | | done | done | done | done].
    unfold buttons, shown. cbn.
    rewrite (decide_True (P := continue_section = continue_section)) by done.
    lia.
Qed.

Lemma dieOptClick_DiceInv k sides w :
  Inv w → DiceInv w → visible die_selector w →
  dieOptions (dom w) !! k = Some sides → DiceInv (dieOptClick sides w).
Proof.
  intros HI (Hd & Hpool & Hg) Hv Hk.
  destruct (Inv_visible w die_selector HI Hv) as (Hp & Hb & h & rest & Hps & Hel);
    [done |].
  destruct Hv as [Hs Hv]. destruct (Hg Hs) as (H100 & _ & Hsel & _).
  destruct (Hsel Hv) as (Hopt & _ & Hai).
  assert (core <$> players (state (dieOptClick sides w))
          = core <$> players (state w)) as Hc.
  { cbn. by apply core_alter. }
  unfold DiceInv, busy.
  change (pending (dieOptClick sides w)) with (pending w).
  change (pool (state (dieOptClick sides w))) with (pool (state w)).
  change (difficulty (state (dieOptClick sides w)))
    with (difficulty (state w)).
  rewrite Hp. split_and!; [| done |].
  { eapply Forall_core; [apply diceOk_core | exact Hc | done]. }
  intros _. split_and!; [| | | | | done].
  - eapply Forall_core; [| exact Hc | done].
    intros p p' Hpp. by rewrite (d100Count_core _ _ Hpp).
  - unfold buttons, shown. cbn.
    rewrite (decide_True (P := roll_section = roll_section)) by done. lia.
  - cbn. by rewrite decide_False, decide_True by done.
  - intros _ i Hi. rewrite (activePlayers_core _ _ Hc) in Hi.
    cbn [players state dieOptClick showRollSection showSection hideSection
         set_hidden modPlayer set_players].
    destruct (decide (i = 0%nat)) as [-> | Hi0].
    + rewrite list_lookup_total_alter_eq by (rewrite Hps; cbn; lia).
      unfold holdsChosen. cbn [chosenDie dice set_chosenDie].
      rewrite <- Hopt. by eapply list_elem_of_lookup_2.
    + rewrite list_lookup_total_alter_ne by done. by apply Hai.
  - cbn. rewrite !decide_False by done.
    by rewrite (buttons_one w die_selector choice_section Hb Hv).
Qed.

Lemma executeRound_DiceInv w rng :
  Inv w → DiceInv w → visible roll_section w → DiceInv (executeRound w rng).
Proof.
  intros HI (Hd & Hpool & Hg) Hv.
  destruct (Inv_visible w roll_section HI Hv) as (Hp & Hb & _); [done |].
  destruct Hv as [Hs Hv]. destruct (Hg Hs) as (H100 & _ & _ & Hroll & _).
  specialize (Hroll Hv).
  unfold executeRound.
  set (w1 := set_phase rolling (hideSection roll_section w)).
  change (players (state w1)) with (players (state w)).
  set (active := activePlayers (players (state w))).
  pose proof (rollAll_core active w1 rng) as Hcore.
  pose proof (rollAll_static active w1 rng) as Hst.
  destruct (rollAll active w1 rng) as [w2 rng2].
  destruct Hcore as (Hc & Hdom & _ & Hpl & Hdiff). cbn [fst] in Hst.
  change (players (state w1)) with (players (state w)) in Hc, Hst.
  unfold DiceInv, busy.
  cbn [players state dom pending set_pending pool difficulty].
  rewrite Hpl, Hdiff, Hdom. split_and!; [| done |].
  { eapply Forall_core; [apply diceOk_core | exact Hc | done]. }
  intros _. split_and!.
  - eapply Forall_core; [| exact Hc | done].
    intros p p' Hpp. by rewrite (d100Count_core _ _ Hpp).
  - lia.
  - cbn. rewrite decide_False by done.
    by rewrite (buttons_one w roll_section die_selector Hb Hv).
  - cbn. by rewrite decide_True by done.
  - cbn. rewrite decide_False by done.
    by rewrite (buttons_one w roll_section choice_section Hb Hv).
  - by eapply allHold_static.
Qed.

(** The dice after the loop over the losers. *)
Lemma losers_diceOk (ps ps' : list Player) (losers : list nat) lost t :
  Forall2 (λ i l, ∃ p p', ps !! i = Some p ∧ ps' !! i = Some p' ∧
                          loserAfter p p' l) losers lost →
  (∀ j, j ∉ losers → ps' !! j = ps !! j) →
  Forall diceOk ps → Forall (λ p, (d100Count p < t)%nat) ps →
  Forall diceOk ps' ∧ Forall (λ p, (d100Count p < t)%nat) ps' ∧
  Forall (λ d, d ∈ DICE_SIDES) (omap id lost).
Proof.
  intros Hall Hother Hd H100.
  assert (∀ j q', ps' !! j = Some q' →
            ∃ q, ps !! j = Some q ∧
                 (diceOk q → diceOk q' ∧ (d100Count q' ≤ d100Count q)%nat))
    as Hrel.
  { intros j q' Hj. destruct (decide (j ∈ losers)) as [Hin | Hnin].
    - apply list_elem_of_lookup in Hin as [n Hn].
      destruct (Forall2_lookup_l _ _ _ _ _ Hall Hn)
        as (l & _ & q & q'' & Hq & Hq'' & Hafter).
      rewrite Hj in Hq''. injection Hq'' as <-.
      exists q. split; [done |]. intros Hok.
      by destruct (loserAfter_diceOk _ _ _ Hafter Hok) as (? & ? & _).
    - rewrite (Hother j Hnin) in Hj. exists q'. split; [done |].
      intros Hok. split; [done | lia]. }
  split_and!.
  - apply Forall_lookup. intros j q' Hj.
    destruct (Hrel j q' Hj) as (q & Hq & Himp).
    apply Himp. by eapply Forall_lookup_1.
  - apply Forall_lookup. intros j q' Hj.
    destruct (Hrel j q' Hj) as (q & Hq & Himp).
    destruct Himp as [_ Hle]; [by eapply Forall_lookup_1 |].
    pose proof (Forall_lookup_1 _ _ _ _ H100 Hq) as Hlt. cbn in Hlt. lia.
  - clear Hother Hrel. induction Hall as [| i l losers lost Hil _ IH]; [done |].
    change (l :: lost) with ([l] ++ lost). rewrite omap_app.
    apply Forall_app. split; [| done].
    destruct Hil as (p & p' & Hp & _ & Hafter).
    apply (loserAfter_diceOk _ _ _ Hafter). by eapply Forall_lookup_1.
Qed.

Lemma resolveTimer_DiceInv w rng active r :
  Inv w → DiceInv w → pending w = Some (ResolveTimer active) →
  resolveRound active (set_pending None w) rng = Some r →
  DiceInv (res_world r).
Proof.
  intros HI (Hd & Hpool & Hg) Hp Hr.
  destruct (Inv_pending _ _ HI Hp) as [Hs Hb].
  destruct HI as (_ & _ & _ & Hgi). destruct (Hgi Hs) as [_ Ht].
  rewrite Hp in Ht. destruct Ht as (_ & Hact & _).
  destruct (Hg Hs) as (H100 & _ & _ & _ & _ & Hhold). rewrite Hp in Hhold.
  destruct (resolveRound_Some active (set_pending None w) rng r) as
    (lost & Hwin & _ & _ & Hsame & _ & Hall & Hpl & _ & Hother & Hdom & Hpend
     & Hdiff);
    [rewrite Hact; apply activePlayers_NoDup
    | rewrite Hact; apply activePlayers_lt | done |].
  change (players (state (set_pending None w))) with (players (state w))
    in Hall, Hother, Hsame.
  change (pool (state (set_pending None w))) with (pool (state w)) in Hpl.
  change (difficulty (state (set_pending None w)))
    with (difficulty (state w)) in Hdiff.
  destruct (losers_diceOk _ _ _ _ _ Hall Hother Hd H100)
    as (Hd' & H100' & Hlost).
  unfold DiceInv, busy. rewrite Hpend, Hpl, Hdiff, Hdom.
  split_and!; [done | by apply Forall_app |]. intros _.
  split_and!; [done | lia | | | |].
  - cbn. rewrite decide_False by done.
    by rewrite (buttons_zero w die_selector Hb).
  - cbn. rewrite decide_False by done.
    by rewrite (buttons_zero w roll_section Hb).
  - cbn. rewrite decide_False by done.
    by rewrite (buttons_zero w choice_section Hb).
  - specialize (Hhold _ Hwin). unfold holdsChosen in *.
    by rewrite !list_lookup_total_alt, Hsame in *.
Qed.

Lemma applied_choice_diceOk c (ps : list Player) i :
  (i < length ps)%nat → holdsChosen (ps !!! i) → Forall diceOk ps →
  Forall diceOk (alter (λ p, (applyChoice c p).2) i ps).
Proof.
  intros Hlt Hhold Hd. apply Forall_alter; [done |].
  intros p Hp Hok. rewrite (list_lookup_total_correct _ _ _ Hp) in Hhold.
  by apply applyChoice_diceOk.
Qed.

Lemma choiceTimer_DiceInv w winner w' :
  Inv w → DiceInv w → pending w = Some (ChoiceTimer winner) →
  winnerChoice winner (set_pending None w) = Some w' →
  DiceInv w'.
Proof.
  intros HI (Hd & Hpool & Hg) Hp Hc.
  destruct (Inv_pending _ _ HI Hp) as [Hs Hb].
  destruct HI as (_ & Hh & _ & Hgi). destruct (Hgi Hs) as [_ Ht].
  rewrite Hp in Ht. destruct Ht as (pw & Hpw & Hel).
  destruct (Hg Hs) as (H100 & _ & _ & _ & _ & Hhold). rewrite Hp in Hhold.
  unfold winnerChoice in Hc.
  change (players (state (set_pending None w))) with (players (state w)) in Hc.
  rewrite (list_lookup_total_correct _ _ _ Hpw) in Hc.
  destruct (isHuman pw) eqn:Hhum.
  - injection Hc as <-. pose proof (Hh _ _ Hpw Hhum) as ->.
    unfold DiceInv, busy.
    cbn [players state showHumanChoice set_phase showSection set_hidden
         set_upgradeDisabled set_pending pending pool difficulty dom screen
         hidden dieOptions upgradeDisabled].
    split_and!; [done | done |]. intros _.
    rewrite !decide_False by done.
    rewrite (decide_True (P := choice_section = choice_section)) by done.
    rewrite (buttons_zero w die_selector Hb), (buttons_zero w roll_section Hb)
      by done.
    split_and!; [done | | done | done | | done].
    + unfold buttons, shown. cbn.
      rewrite (decide_True (P := choice_section = choice_section)) by done.
      lia.
    + intros _. split; [done |].
      by rewrite (list_lookup_total_correct _ _ _ Hpw).
  - eapply checkWinCondition_DiceInv; [| | | | exact Hc]; [done | | | done].
    + rewrite <- Hb. by apply buttons_dom.
    + apply applied_choice_diceOk; [by eapply lookup_lt_Some | done | done].
Qed.

Lemma applyHumanChoice_DiceInv c w w' :
  Inv w → DiceInv w → visible choice_section w →
  applyHumanChoice c w = Some w' → DiceInv w'.
Proof.
  intros HI (Hd & Hpool & Hg) Hv Hc.
  destruct (Inv_visible w choice_section HI Hv)
    as (Hp & Hb & h & rest & Hps & Hel); [done |].
  destruct Hv as [Hs Hv]. destruct (Hg Hs) as (_ & _ & _ & _ & Hch & _).
  destruct (Hch Hv) as [Hhold _].
  unfold applyHumanChoice in Hc. rewrite Hps in Hc.
  cbn [lookup list_lookup mbind option_bind] in Hc.
  eapply checkWinCondition_DiceInv; [| | | | exact Hc]; [done | | | done].
  - unfold buttons, shown. cbn. rewrite !decide_False by done.
    rewrite (decide_True (P := choice_section = choice_section)) by done.
    rewrite (buttons_one w choice_section die_selector Hb Hv),
      (buttons_one w choice_section roll_section Hb Hv),
      (buttons_one w choice_section continue_section Hb Hv) by done.
    done.
  - apply applied_choice_diceOk; [rewrite Hps; cbn; lia | done | done].
Qed.

(** Every event keeps [DiceInv]. *)
Lemma DiceInv_event w e w' :
  Inv w → DiceInv w → enabled e w → handle e w = Some w' → DiceInv w'.
Proof.
  intros HI HD Hen Hh. destruct e; cbn [handle enabled] in Hen, Hh.
  - destruct Hen as [Hs _]. revert Hh. unfold initGame.
    destruct HI as (_ & _ & Hn & _).
    apply startRound_DiceInv; cbn.
    + constructor; [done |]. apply Forall_fmap, Forall_forall. by intros i _.
    + intros [| i] p Hi Hhum; [done |]. cbn in Hi.
      apply list_lookup_fmap_Some in Hi as (k & -> & _). done.
    + by eexists _, _.
    + apply Hn. by rewrite Hs.
    + done.
    + assert (diceOk (newPlayer "" false)) as Hnew.
      { split; [repeat constructor |]. constructor; [| done].
        by apply (list_elem_of_lookup_2 _ 0%nat). }
      constructor; [done |]. apply Forall_fmap, Forall_forall. by intros i _.
    + done.
    + assert (0 < targetD100s d)%nat as Ht by (destruct d; cbn; lia).
      constructor; [done |]. apply Forall_fmap, Forall_forall. by intros i _.
  - injection Hh as <-. destruct HD as (Hd & Hpool & _).
    unfold DiceInv. cbn. by split_and!.
  - destruct Hen as [Hv _].
    destruct (dieOptions (dom w) !! k) as [sides |] eqn:Hk; [| done].
    injection Hh as <-. by eapply dieOptClick_DiceInv.
  - injection Hh as <-. by apply executeRound_DiceInv.
  - by eapply applyHumanChoice_DiceInv.
  - destruct Hen as [Hv _]. by eapply applyHumanChoice_DiceInv.
  - destruct (Inv_visible w continue_section HI Hen) as (Hp & _ & Ha);
      [done |].
    destruct HI as (Hok & Hhum & _). destruct HD as (Hd & Hpool & Hg).
    destruct Hen as [Hs _]. destruct (Hg Hs) as (H100 & _).
    revert Hh. unfold continueClick. by apply startRound_DiceInv.
  - destruct (pending w) as [[active | winner] |] eqn:Hp; [| | done].
    + destruct (resolveRound _ _ _) as [r |] eqn:Hr; [| done].
      injection Hh as <-. by eapply resolveTimer_DiceInv.
    + by eapply choiceTimer_DiceInv.
Qed.

Lemma Reachable_DiceInv w : Reachable w → DiceInv w.
Proof.
  induction 1 as [w Hl | w e w' Hr IH Hen Hh].
  - by apply DiceInv_load.
  - eapply DiceInv_event; [| exact IH | exact Hen | exact Hh].
    by apply Reachable_Inv.
Qed.
